(** * dice-game: a shallow embedding of [diceGame.js]

    The program is a console game of non-transitive dice.  The computer
    commits to a random number by printing an HMAC, the user answers, the
    computer reveals number and key.  This file embeds the classes of
    [diceGame.js] as Rocq functions and proves properties of them.

    Conventions of the embedding:
    - a JS number is an IEEE 754 binary64 value, [spec_float] at precision 53;
      small integers that only serve as array indices or protocol numbers
      are kept in [Z] or [nat];
    - a JS string is a [string] whose characters are the code units below 256;
    - [null] and [undefined] are [None];
    - an object with mutable fields is a record threaded through its methods;
      the [Dice] objects live in a store and are named by their address;
    - the console, the keyboard and the random source form the [world]. *)

From Stdlib Require Import ZArith Lia Bool Ascii String DecimalString DecimalNat.
From Stdlib Require Import Floats.SpecFloat.
From stdpp Require Import base option list.

Local Open Scope string_scope.
Local Open Scope list_scope.
Local Open Scope Z_scope.

(** ** JS numbers *)

Module JsNumber.

Definition prec : Z := 53.
Definition emax : Z := 1024.

Abbreviation number := spec_float.

Definition NaN : number := S754_nan.

(** The number denoted by an integer (exact below 2^53). *)
Definition ofZ (z : Z) : number := binary_normalize prec emax z 0 false.

(** [x > y], [x === y] and [x / y] on numbers. *)
Definition gt (x y : number) : bool := SFltb y x.
Definition strictEq (x y : number) : bool := SFeqb x y.
Definition div (x y : number) : number := SFdiv prec emax x y.

(** The global [isNaN] applied to a number. *)
Definition isNaN (x : number) : bool :=
  match x with S754_nan => true | _ => false end.

(** The number nearest to [m * 10^k], for [m >= 0], with sign [neg]. *)
Definition ofDecimal (neg : bool) (m k : Z) : number :=
  match m with
  | Z0 => S754_zero neg
  | Zpos p =>
      if 0 <=? k
      then binary_round prec emax neg (p * Z.to_pos (10 ^ k)) 0
      else SFdiv prec emax (S754_finite neg p 0)
                           (S754_finite false (Z.to_pos (10 ^ (- k))) 0)
  | Zneg _ => NaN
  end.

End JsNumber.
Import JsNumber.

(** ** JS strings *)

Module JsString.

Definition code (c : ascii) : nat := nat_of_ascii c.

(** WhiteSpace and LineTerminator code units: TAB, LF, VT, FF, CR, SP, NBSP. *)
Definition isWhiteSpace (c : ascii) : bool :=
  let n := code c in
  ((n =? 9) || (n =? 10) || (n =? 11) || (n =? 12) || (n =? 13)
   || (n =? 32) || (n =? 160))%nat.

Fixpoint trimStart (s : string) : string :=
  match s with
  | String c r => if isWhiteSpace c then trimStart r else s
  | EmptyString => EmptyString
  end.

(** [trimEnd] drops the trailing white space: a character stays when it is
    not white space or when something stays after it. *)
Fixpoint trimEnd (s : string) : string :=
  match s with
  | String c r =>
      match trimEnd r with
      | EmptyString => if isWhiteSpace c then EmptyString else String c EmptyString
      | r' => String c r'
      end
  | EmptyString => EmptyString
  end.

(** [String.prototype.trim]. *)
Definition trim (s : string) : string := trimEnd (trimStart s).

(** [str.split(",")]: the pieces between the commas, at least one. *)
Fixpoint split_comma (s : string) : list string :=
  match s with
  | EmptyString => [EmptyString]
  | String c r =>
      if Ascii.eqb c "," then EmptyString :: split_comma r
      else match split_comma r with
           | h :: t => String c h :: t
           | [] => [String c EmptyString]
           end
  end.

Definition upperChar (c : ascii) : ascii :=
  let n := code c in
  if ((97 <=? n) && (n <=? 122))%nat then ascii_of_nat (n - 32) else c.

Definition lowerChar (c : ascii) : ascii :=
  let n := code c in
  if ((65 <=? n) && (n <=? 90))%nat then ascii_of_nat (n + 32) else c.

(** [String.prototype.toLowerCase] on the ASCII letters. *)
Fixpoint toLowerCase (s : string) : string :=
  match s with
  | String c r => String (lowerChar c) (toLowerCase r)
  | EmptyString => EmptyString
  end.

Definition quote : string := String (ascii_of_nat 34) EmptyString.
Definition newline : string := String (ascii_of_nat 10) EmptyString.

(** [String.prototype.toUpperCase] on the ASCII letters. *)
Fixpoint toUpperCase (s : string) : string :=
  match s with
  | String c r => String (upperChar c) (toUpperCase r)
  | EmptyString => EmptyString
  end.

(** [index.toString()] for an array index. *)
Definition ofIndex (i : nat) : string := NilEmpty.string_of_uint (Nat.to_uint i).

(** [array.includes(answer)] on strings. *)
Definition includes (answer : string) (options : list string) : bool :=
  existsb (String.eqb answer) options.

End JsString.
Import JsString.

(** ** [Number(string)]: the StringToNumber conversion *)

Module ToNumber.

(** The value of a digit in the given radix. *)
Definition digit_of (radix : Z) (c : ascii) : option Z :=
  let n := Z.of_nat (code c) in
  let d := if (48 <=? n) && (n <=? 57) then n - 48
           else if (97 <=? n) && (n <=? 102) then n - 87
           else if (65 <=? n) && (n <=? 70) then n - 55
           else radix in
  if d <? radix then Some d else None.

(** Reads the longest run of digits: accumulated value, number of digits
    read, and the rest of the text. *)
Fixpoint span_digits (radix : Z) (s : string) (acc : Z) (n : nat)
  : Z * nat * string :=
  match s with
  | String c r =>
      match digit_of radix c with
      | Some d => span_digits radix r (acc * radix + d) (S n)
      | None => (acc, n, s)
      end
  | EmptyString => (acc, n, s)
  end.

(** ExponentPart, optional: [e] or [E], an optional sign, digits; then the
    text must end. *)
Definition parse_exponent (s : string) : option Z :=
  match s with
  | EmptyString => Some 0
  | String c r =>
      if Ascii.eqb c "e" || Ascii.eqb c "E" then
        let '(sg, r') :=
          match r with
          | String "+" r' => (1, r')
          | String "-" r' => (-1, r')
          | _ => (1, r)
          end in
        let '(v, n, rest) := span_digits 10 r' 0 0 in
        match n, rest with
        | S _, EmptyString => Some (sg * v)
        | _, _ => None
        end
      else None
  end.

(** StrUnsignedDecimalLiteral: [Infinity], or digits with an optional
    fraction and exponent, at least one digit before the exponent. *)
Definition parse_unsigned_decimal (neg : bool) (s : string) : number :=
  if String.eqb s "Infinity" then S754_infinity neg else
  let '(i, ni, r1) := span_digits 10 s 0 0 in
  let '(m, nf, r2) :=
    match r1 with
    | String "." r => span_digits 10 r i 0
    | _ => (i, 0%nat, r1)
    end in
  match (ni + nf)%nat with
  | O => NaN
  | S _ =>
      match parse_exponent r2 with
      | Some e => ofDecimal neg m (e - Z.of_nat nf)
      | None => NaN
      end
  end.

(** NonDecimalIntegerLiteral after its prefix: at least one digit, then the
    end of the text. *)
Definition parse_radix (radix : Z) (s : string) : number :=
  let '(v, n, rest) := span_digits radix s 0 0 in
  match n, rest with
  | S _, EmptyString => ofZ v
  | _, _ => NaN
  end.

Definition parse_literal (s : string) : number :=
  match s with
  | String "0" (String "x" r) | String "0" (String "X" r) => parse_radix 16 r
  | String "0" (String "o" r) | String "0" (String "O" r) => parse_radix 8 r
  | String "0" (String "b" r) | String "0" (String "B" r) => parse_radix 2 r
  | String "+" r => parse_unsigned_decimal false r
  | String "-" r => parse_unsigned_decimal true r
  | _ => parse_unsigned_decimal false s
  end.

(** [Number(s)] for a string [s]: white space is trimmed, the empty text is
    [+0], a text that is no numeric literal is [NaN]. *)
Definition Number (s : string) : number :=
  match trim s with
  | EmptyString => S754_zero false
  | t => parse_literal t
  end.

(** [Number(answer)] for an answer that is the text of an array index: its
    decimal reading, kept as an index. *)
Definition NumberOfIndex (answer : string) : nat :=
  match NilEmpty.uint_of_string answer with
  | Some d => Nat.of_uint d
  | None => 0%nat
  end.

End ToNumber.
Import ToNumber.

(** ** The platform: exceptions, console, keyboard, random source *)

(** A thrown JS error: the name of its class and its message. *)
Record exn := { name : string; message : string }.

Definition Error (msg : string) : exn := {| name := "Error"; message := msg |}.
Definition TypeError (msg : string) : exn := {| name := "TypeError"; message := msg |}.
Definition RangeError (msg : string) : exn := {| name := "RangeError"; message := msg |}.

(** What the program writes and reads, one constructor per kind of
    [console.log] line; values are kept as values, not as their text. *)
Inductive event :=
| Out (line : string)                     (* a line of fixed text *)
| OutOption (index : nat)                 (* `${index} - ${option}` *)
| Question (prompt answer : string)       (* readline.question(prompt) gave answer *)
| OutTable (cells : list (list number))   (* the probability table *)
| OutHmac (hmac : string)                 (* (HMAC=...). *)
| OutSelection (n : option Z)             (* My selection: n *)
| OutKey (key : list Byte.byte)           (* (KEY=...). *)
| OutUserDice (d : option (list number))  (* You chose the ... dice. *)
| OutComputerDice (d : option (list number)) (* I choose the ... dice. *)
| OutComputerFirst (d : option (list number)) (* I make the first move and choose the ... dice. *)
| OutFair (c : option Z) (u : nat) (r : option Z) (* The fair number generation result is ... *)
| OutRoll (whose : string) (r : option number)   (* ... roll result is r. *)
| OutWin (user computer : option number)  (* You win (user > computer)! *)
| OutDraw (user computer : option number) (* It's draw (user = computer)! *)
| OutLose (user computer : option number) (* I win (user < computer)! *)
| ErrLine (msg : string).                 (* console.error("Error:", msg) *)

(** [node:crypto]: the HMAC and the secure random source are not part of the
    program; a run is relative to them. *)
Class NodeCrypto := {
  (** [createHmac("sha3-256", key).update(data).digest("hex")] *)
  hmac_sha3_256_hex : list Byte.byte -> list Byte.byte -> string;
  (** the successive values the random source supplies *)
  entropy : nat -> N
}.

(** The state of a run: how many values were drawn from the random source,
    the lines the user still types, and what was printed so far. *)
Record world := { drawn : nat; stdin : list string; console : list event }.

(** How a computation ends: it returns, throws, calls [process.exit], or
    waits for a line the user never types. *)
Inductive outcome (A : Type) :=
| Returned (a : A)
| Thrown (e : exn)
| Exited (code : Z)
| Waiting.
Arguments Returned {A} a.
Arguments Thrown {A} e.
Arguments Exited {A} code.
Arguments Waiting {A}.

Definition M (A : Type) : Type := world -> outcome A * world.

#[export] Instance M_ret : MRet M := fun A a w => (Returned a, w).
#[export] Instance M_bind : MBind M := fun A B f m w =>
  match m w with
  | (Returned a, w') => f a w'
  | (Thrown e, w') => (Thrown e, w')
  | (Exited c, w') => (Exited c, w')
  | (Waiting, w') => (Waiting, w')
  end.

Definition throw {A} (e : exn) : M A := fun w => (Thrown e, w).
Definition exit {A} (code : Z) : M A := fun w => (Exited code, w).

(** [console.log] and [console.error]. *)
Definition log (e : event) : M unit := fun w =>
  (Returned tt, {| drawn := drawn w; stdin := stdin w; console := console w ++ [e] |}).

Definition byte_of_N (n : N) : Byte.byte := byte_of_ascii (ascii_of_N n).

(** [Number.isSafeInteger] on an integer: its magnitude is at most 2^53 - 1. *)
Definition isSafeInteger (z : Z) : bool := Z.abs z <? 2 ^ 53.
Arguments isSafeInteger : simpl never.

Section Crypto.
Context `{NodeCrypto}.

(** [crypto.randomInt(0, max)]: an integer in [0, max).  Node first asks
    for a safe integer, or else throws a TypeError (ERR_INVALID_ARG_TYPE);
    then [max] must be above the minimum 0 and at most 2^48 - 1, or else a
    RangeError (ERR_OUT_OF_RANGE) is thrown. *)
Definition randomInt (max : Z) : M Z := fun w =>
  if negb (isSafeInteger max)
  then (Thrown (TypeError "The max argument must be a safe integer."), w)
  else if (0 <? max) && (max <? 2 ^ 48)
  then (Returned (Z.of_N (entropy (drawn w)) mod max),
        {| drawn := S (drawn w); stdin := stdin w; console := console w |})
  else (Thrown (RangeError "The value of max is out of range."), w).

(** [crypto.randomBytes(n)]. *)
Definition randomBytes (n : nat) : M (list Byte.byte) := fun w =>
  (Returned (map (fun i => byte_of_N (entropy i)) (seq (drawn w) n)),
   {| drawn := (drawn w + n)%nat; stdin := stdin w; console := console w |}).

End Crypto.

(** ** class Dice *)

Module Dice.

Record t := new { values : list number }.

Definition getValues (d : t) : list number := values d.

Definition numberOfFaces (d : t) : nat := length (values d).

(** [this.values[index]]: the face at [index], [undefined] outside the array. *)
Definition roll (d : t) (index : Z) : option number :=
  if index <? 0 then None else values d !! Z.to_nat index.

End Dice.

(** The [Dice] objects of a run, in allocation order; an object is named by
    its position in the store. *)
Definition ref : Type := nat.
Definition store : Type := list Dice.t.

(** The faces of the die behind a reference, as a template literal shows it. *)
Definition shown (st : store) (r : option ref) : option (list number) :=
  r ≫= fun a => Dice.values <$> st !! a.

(** ** class DiceConfigParser *)

Module DiceConfigParser.

Record t := { argv : list string; diceConfig : list (list number) }.

(** The callback of [this.argv.map]: one configuration string to its faces. *)
Definition parse (str : string) : exn + list number :=
  let parts := map Number (split_comma str) in
  if (length parts <? 2)%nat || existsb isNaN parts
  then inl (Error ("Invalid dice configuration: " ++ quote ++ str ++ quote
                   ++ ". Expected comma-separated numbers.")%string)
  else inr parts.

(** [Array.prototype.map] with a callback that may throw: the first throw
    ends the traversal. *)
Fixpoint map_throwing {A B} (f : A -> exn + B) (l : list A) : exn + list B :=
  match l with
  | [] => inr []
  | x :: r =>
      match f x with
      | inl e => inl e
      | inr y =>
          match map_throwing f r with
          | inl e => inl e
          | inr ys => inr (y :: ys)
          end
      end
  end.

(** The constructor. *)
Definition new (process_argv : list string) : exn + t :=
  let argv := drop 2 process_argv in
  if (length argv <? 3)%nat
  then inl (Error "You must provide at least 3 dice configurations.")
  else match map_throwing parse argv with
       | inl e => inl e
       | inr cfg => inr {| argv := argv; diceConfig := cfg |}
       end.

Definition getRawDiceConfig (p : t) : list (list number) := diceConfig p.

(** [this.diceConfig.map(cfg => new Dice(cfg))]: the new objects, and the
    array of references to them. *)
Definition getDiceConfig (p : t) : store * list ref :=
  (map Dice.new (diceConfig p), seq 0 (length (diceConfig p))).

End DiceConfigParser.

(** ** class ProbabilityCalculator *)

Module ProbabilityCalculator.

Definition computeWinProbability (userDice computerDice : list number) : number :=
  let wins :=
    length (List.filter (fun b : bool => b)
              (flat_map (fun x => map (fun y => gt x y) computerDice) userDice)) in
  let total := (length userDice * length computerDice)%nat in
  div (ofZ (Z.of_nat wins)) (ofZ (Z.of_nat total)).

End ProbabilityCalculator.

(** ** class TableGenerator *)

Module TableGenerator.

(** The cells of the table, row [i] column [j] being the probability that
    die [i] beats die [j], before [toFixed(3)] and colouring.  [diceList] is
    an array at every call, so the guard on a missing list never fires. *)
Definition generate (diceList : list (list number)) : M unit :=
  log (OutTable
         (map (fun di =>
                 map (fun dj => ProbabilityCalculator.computeWinProbability di dj)
                     diceList)
              diceList)).

End TableGenerator.

(** ** class Menu *)

Module Menu.

(** The loop of [readInput], one iteration per line typed.  A line that is
    no option is refused, [?] prints the table and asks again, [X] leaves
    the process with status 1, an index is returned as a number.  The table
    is always given the list of dice, so [generate] does not throw and the
    [catch] around it is not reached. *)
Fixpoint readInput_loop (prompt : string) (options : list string)
    (diceList : list (list number)) (lines : list string) (w : world)
  : outcome nat * world :=
  match lines with
  | [] => (Waiting, w)
  | line :: rest =>
      let w := {| drawn := drawn w; stdin := rest;
                  console := console w ++ [Question prompt line] |} in
      let answer := trim line in
      if negb (includes answer options) then
        match log (Out "Please, select from the options provided.") w with
        | (_, w) => readInput_loop prompt options diceList rest w
        end
      else if String.eqb answer "?" then
        match TableGenerator.generate diceList w with
        | (_, w) => readInput_loop prompt options diceList rest w
        end
      else if String.eqb answer "X" then exit 1 w
      else (Returned (NumberOfIndex answer), w)
  end.

Definition readInput (prompt : string) (options : list string)
    (diceList : list (list number)) : M nat :=
  fun w => readInput_loop prompt options diceList (stdin w) w.

(** [options.forEach]: one line per option, collecting the index texts. *)
Definition printOptions {A} (options : list A) : M (list string) :=
  foldl (fun acc index =>
           indexes ← acc;
           log (OutOption index);;
           mret (indexes ++ [ofIndex index]))
        (mret []) (seq 0 (length options)).

Definition promptSelection {A} (message : string) (options : list A)
    (diceList : list (list number)) : M nat :=
  log (Out message);;
  indexes ← printOptions options;
  log (Out "X - exit");;
  log (Out "? - help");;
  readInput "Your selection: " (indexes ++ ["X"; "?"]) diceList.

End Menu.

(** ** class RandomGenerator *)

Module RandomGenerator.
Section WithCrypto.
Context `{NodeCrypto}.

Definition rand (range : Z) : M Z := randomInt range.

Definition key : M (list Byte.byte) := randomBytes 32.

(** [key.toString('hex')] on [null] is a TypeError. *)
Definition printKey (key : option (list Byte.byte)) : M unit :=
  match key with
  | Some k => log (OutKey k)
  | None => throw (TypeError "Cannot read properties of null (reading 'toString')")
  end.

End WithCrypto.
End RandomGenerator.

(** ** class HmacCalculator *)

Module HmacCalculator.
Section WithCrypto.
Context `{NodeCrypto}.

(** [Buffer.from([num])]: one byte, the number modulo 256 ([null] is 0). *)
Definition bufferFrom (num : option Z) : list Byte.byte :=
  [byte_of_N (Z.to_N (default 0 num mod 256))].

(** [createHmac] refuses a [null] key. *)
Definition calcHmac (num : option Z) (key : option (list Byte.byte)) : M string :=
  match key with
  | Some k => mret (hmac_sha3_256_hex k (bufferFrom num))
  | None => throw (TypeError "The key argument must be of type string or an instance of Buffer.")
  end.

Definition printHmac (hmac : option string) : M unit :=
  match hmac with
  | Some h => log (OutHmac (toUpperCase h))
  | None => throw (TypeError "Cannot read properties of null (reading 'toUpperCase')")
  end.

End WithCrypto.
End HmacCalculator.

(** ** class Protocol *)

Module Protocol.

Record t := {
  range : Z;
  key : option (list Byte.byte);
  computerNum : option Z;
  hmac : option string;
  userFirst : bool
}.

Definition new (range : Z) : t :=
  {| range := range; key := None; computerNum := None; hmac := None;
     userFirst := false |}.

Definition computerNumber (p : t) : option Z := computerNum p.
Definition isUserFirst (p : t) : bool := userFirst p.
Definition set_isUserFirst (p : t) (b : bool) : t :=
  {| range := range p; key := key p; computerNum := computerNum p;
     hmac := hmac p; userFirst := b |}.

Section WithCrypto.
Context `{NodeCrypto}.

Definition generateKey (p : t) : M t :=
  k ← RandomGenerator.key;
  mret {| range := range p; key := Some k; computerNum := computerNum p;
          hmac := hmac p; userFirst := userFirst p |}.

Definition generateRandomIndex (p : t) (max : Z) : M t :=
  n ← RandomGenerator.rand max;
  mret {| range := range p; key := key p; computerNum := Some n;
          hmac := hmac p; userFirst := userFirst p |}.

Definition computeHmac (p : t) : M t :=
  h ← HmacCalculator.calcHmac (computerNum p) (key p);
  mret {| range := range p; key := key p; computerNum := computerNum p;
          hmac := Some h; userFirst := userFirst p |}.

Definition start (p : t) : M t :=
  p ← generateKey p;
  p ← generateRandomIndex p (range p);
  p ← computeHmac p;
  HmacCalculator.printHmac (hmac p);;
  mret p.

Definition reveal (p : t) : M unit :=
  log (OutSelection (computerNum p));;
  RandomGenerator.printKey (key p).

End WithCrypto.
End Protocol.

(** ** class DiceSelection *)

Module DiceSelection.

Record t := {
  dice : list ref;
  protocol : Protocol.t;
  computerDice : option ref;
  userDice : option ref
}.

Definition new (dice : list ref) (protocol : Protocol.t) : t :=
  {| dice := dice; protocol := protocol; computerDice := None; userDice := None |}.

Definition getUserDice (s : t) : option ref := userDice s.
Definition getComputerDice (s : t) : option ref := computerDice s.

(** [userGuess === this.protocol.computerNumber] *)
Definition guessed (userGuess : nat) (computerNumber : option Z) : bool :=
  match computerNumber with
  | Some n => n =? Z.of_nat userGuess
  | None => false
  end.

Section WithCrypto.
Context `{NodeCrypto}.

Definition start (s : t) (st : store) (diceList : list (list number)) : M t :=
  log (Out ("Let's determine who makes the first move." ++ newline
            ++ "I selected a random value in the range 0..1")%string);;
  p ← Protocol.start (protocol s);
  userGuess ← Menu.promptSelection "Try to guess my selection." [0; 1] diceList;
  let p := if guessed userGuess (Protocol.computerNumber p)
           then Protocol.set_isUserFirst p true else p in
  Protocol.reveal p;;
  if Protocol.isUserFirst p then
    index ← Menu.promptSelection "You make the first move. Choose your dice:"
              (dice s) diceList;
    let userDice := dice s !! index in
    log (OutUserDice (shown st userDice));;
    let dice := delete index (dice s) in
    r ← RandomGenerator.rand (Z.of_nat (length dice));
    let computerDice := dice !! Z.to_nat r in
    log (OutComputerDice (shown st computerDice));;
    mret {| dice := dice; protocol := p;
            computerDice := computerDice; userDice := userDice |}
  else
    index ← RandomGenerator.rand (Z.of_nat (length (dice s)));
    let computerDice := dice s !! Z.to_nat index in
    log (OutComputerFirst (shown st computerDice));;
    let dice := delete (Z.to_nat index) (dice s) in
    i ← Menu.promptSelection "Choose your dice:" dice diceList;
    let userDice := dice !! i in
    log (OutUserDice (shown st userDice));;
    mret {| dice := dice; protocol := p;
            computerDice := computerDice; userDice := userDice |}.

End WithCrypto.
End DiceSelection.

(** ** class DiceRoller *)

Module DiceRoller.

Record t := {
  whose : string;
  protocol : Protocol.t;
  userDice : option ref;
  computerDice : option ref
}.

Definition new (whose : string) (protocol : Protocol.t)
    (userDice computerDice : option ref) : t :=
  {| whose := whose; protocol := protocol;
     userDice := userDice; computerDice := computerDice |}.

Definition isUserDice (whose : string) : bool :=
  if String.eqb whose "My" then false else true.

(** [>] and [===] on roll results, which may be [undefined]. *)
Definition gt_result (a b : option number) : bool :=
  match a, b with
  | Some x, Some y => gt x y
  | _, _ => false
  end.

Definition strictEq_result (a b : option number) : bool :=
  match a, b with
  | Some x, Some y => strictEq x y
  | None, None => true
  | _, _ => false
  end.

Definition result (user computer : option number) : M unit :=
  if gt_result user computer then log (OutWin user computer)
  else if strictEq_result user computer then log (OutDraw user computer)
  else log (OutLose user computer).

(** [(computerNumber + Number(userSelection)) % 6]; [null] counts as 0. *)
Definition fairNumber (computerNumber : option Z) (userSelection : nat) : Z :=
  Z.rem (default 0 computerNumber + Z.of_nat userSelection) 6.

(** [dice.roll(index)] through a reference; [null] has no method. *)
Definition rollOf (st : store) (d : option ref) (index : Z) : M (option number) :=
  match d ≫= fun a => st !! a with
  | Some die => mret (Dice.roll die index)
  | None => throw (TypeError "Cannot read properties of null (reading 'roll')")
  end.

Section WithCrypto.
Context `{NodeCrypto}.

Definition start (r : t) (st : store) (diceList : list (list number))
  : M (option number) :=
  log (Out ("It's time for " ++ toLowerCase (whose r) ++ " roll." ++ newline
            ++ "I selected a random value in the range 0..5")%string);;
  p ← Protocol.start (protocol r);
  userSelection ← Menu.promptSelection "Add your number modulo 6."
                    [0; 1; 2; 3; 4; 5] diceList;
  Protocol.reveal p;;
  let result := fairNumber (Protocol.computerNumber p) userSelection in
  log (OutFair (Protocol.computerNumber p) userSelection (Some result));;
  result ← (if isUserDice (whose r) then rollOf st (userDice r) result
            else rollOf st (computerDice r) result);
  log (OutRoll (whose r) result);;
  mret result.

End WithCrypto.
End DiceRoller.

(** ** main *)

Section Main.
Context `{NodeCrypto}.

Definition main (process_argv : list string) : M unit :=
  match DiceConfigParser.new process_argv with
  | inl e => log (ErrLine (message e));; exit 1
  | inr dice =>
      let '(st, refs) := DiceConfigParser.getDiceConfig dice in
      let raw := DiceConfigParser.getRawDiceConfig dice in
      selection ← DiceSelection.start
                    (DiceSelection.new refs (Protocol.new 2)) st raw;
      log (Out ("Let's start the game. I will start." ++ newline
                ++ "[It doesn't matter who goes first since we have different dice]")%string);;
      let firstRoll :=
        DiceRoller.new "My" (Protocol.new 5)
          (DiceSelection.getUserDice selection)
          (DiceSelection.getComputerDice selection) in
      computerResult ← DiceRoller.start firstRoll st raw;
      let secondRoll :=
        DiceRoller.new "Your" (Protocol.new 5)
          (DiceSelection.getUserDice selection)
          (DiceSelection.getComputerDice selection) in
      userResult ← DiceRoller.start secondRoll st raw;
      DiceRoller.result userResult computerResult
  end.

(** A run from the command line and the lines the user types. *)
Definition run (process_argv lines : list string) : outcome unit * world :=
  main process_argv {| drawn := 0; stdin := lines; console := [] |}.

End Main.

(** The exit status of the process: 0 after a normal end, the argument of
    [process.exit], 1 after an uncaught error; none while it waits. *)
Definition exitStatus {A} (o : outcome A) : option Z :=
  match o with
  | Returned _ => Some 0
  | Exited c => Some c
  | Thrown _ => Some 1
  | Waiting => None
  end.

(** ** A platform to run examples on

    The random source replays a tape (zero after its end); the HMAC is
    replaced by a stand-in that writes the data byte and the key length, which
    is enough to run the program but is no MAC. *)

Definition tapeCrypto (tape : list N) : NodeCrypto :=
  {| hmac_sha3_256_hex := fun key data =>
       (String.concat EmptyString (map (fun b => ofIndex (N.to_nat (Byte.to_N b))) data)
        ++ "k" ++ ofIndex (length key))%string;
     entropy := fun i => nth i tape 0%N |}.

(** ** Observing a run *)

(** The world after more output. *)
Definition emit (evs : list event) (w : world) : world :=
  {| drawn := drawn w; stdin := stdin w; console := console w ++ evs |}.

(** An observer of the disclosure order of one run.  [Idle]: no commitment
    is open and none was revealed yet.  [Committed]: a tag is published and
    no answer is pending.  [Answered]: a line was read after the tag and
    nothing was printed since.  [Revealing n]: the number [n] is printed and
    the key is due.  [Revealed n]: the round of the number [n] is revealed in
    full and no commitment is open.  [rounds] counts the commitments opened
    and revealed in full. *)
Inductive phase :=
| Idle | Committed | Answered | Revealing (n : option Z) | Revealed (n : option Z).

Record observer := { current : phase; rounds : nat }.

(** The lines that depend on the number of a round: the line of the fair
    number, which prints it; the roll results and verdicts, which are
    computed from it; and the choices of dice, whose order says whether the
    guess met the number. *)
Definition depends_on_number (e : event) : bool :=
  match e with
  | OutFair _ _ _ | OutRoll _ _ | OutWin _ _ | OutDraw _ _ | OutLose _ _
  | OutUserDice _ | OutComputerDice _ | OutComputerFirst _ => true
  | _ => false
  end.

(** One event seen by the observer; [None] when the event is out of order:
    a tag while a commitment is open; the number with no answer read just
    before it; anything but the key after the number; a key with no number
    before it; a line that depends on the number before the round is
    revealed in full; a fair number line that shows another number than the
    one revealed. *)
Definition observe (o : observer) (e : event) : option observer :=
  let goto ph := Some {| current := ph; rounds := rounds o |} in
  match current o with
  | Idle =>
      match e with
      | OutHmac _ => goto Committed
      | OutSelection _ | OutKey _ => None
      | _ => if depends_on_number e then None else goto Idle
      end
  | Committed =>
      match e with
      | Question _ _ => goto Answered
      | OutHmac _ | OutSelection _ | OutKey _ => None
      | _ => if depends_on_number e then None else goto Committed
      end
  | Answered =>
      match e with
      | Question _ _ => goto Answered
      | OutSelection n => goto (Revealing n)
      | OutHmac _ | OutKey _ => None
      | _ => if depends_on_number e then None else goto Committed
      end
  | Revealing n =>
      match e with
      | OutKey _ => Some {| current := Revealed n; rounds := S (rounds o) |}
      | _ => None
      end
  | Revealed n =>
      match e with
      | OutHmac _ => goto Committed
      | OutSelection _ | OutKey _ => None
      | OutFair c _ _ => if decide (c = n) then goto (Revealed n) else None
      | _ => goto (Revealed n)
      end
  end.

Fixpoint observe_all (o : observer) (evs : list event) : option observer :=
  match evs with
  | [] => Some o
  | e :: r =>
      match observe o e with
      | Some o' => observe_all o' r
      | None => None
      end
  end.

Definition fresh_observer : observer := {| current := Idle; rounds := 0 |}.


(** * Vocabulary of the properties *)

(** [hoare P m Q E]: from a world in [P], [m] either returns [a] in a world
    in [Q a], or stops otherwise in a world in [E]. *)
Definition hoare {A} (P : world -> Prop) (m : M A)
    (Q : A -> world -> Prop) (E : world -> Prop) : Prop :=
  forall w, P w ->
    match m w with
    | (Returned a, w') => Q a w'
    | (_, w') => E w'
    end.

(** What [promptSelection] prints before it reads, for a menu of [n]
    options, and the answers [readInput] then accepts. *)
Definition menu_lines (message : string) (n : nat) : list event :=
  Out message :: map OutOption (seq 0 n) ++ [Out "X - exit"; Out "? - help"].

Definition menu_options (n : nat) : list string :=
  map ofIndex (seq 0 n) ++ ["X"; "?"].

(** What [readInput] prints while it loops. *)
Definition chatter (e : event) : Prop :=
  e = Out "Please, select from the options provided." \/ exists cells, e = OutTable cells.

(** A property of what was printed so far, as a property of the world. *)
Definition on_console (I : list event -> Prop) : world -> Prop :=
  fun w => I (console w).

(** What [start] leaves in the round object. *)
Definition started (p p' : Protocol.t) : Prop :=
  Protocol.range p' = Protocol.range p
  /\ Protocol.userFirst p' = Protocol.userFirst p
  /\ (exists k, Protocol.key p' = Some k /\ length k = 32%nat)
  /\ (exists n, Protocol.computerNum p' = Some n /\ 0 <= n < Protocol.range p)
  /\ is_Some (Protocol.hmac p').





(** The line of the fair number shows a computer number from 0 to 4. *)
Definition secret_below_5 (e : event) : Prop :=
  match e with
  | OutFair c _ _ => exists n, c = Some n /\ 0 <= n < 5
  | _ => True
  end.

Definition secrets_below_5 (evs : list event) : Prop := Forall secret_below_5 evs.

(** A game to run: three dice, a random source that makes the computer pick
    1, then 0, then 4, then 3, and a user who guesses 1, takes the first die,
    adds 5 to the first roll, asks for help, mistypes and adds 2 to the
    second roll. *)
Definition demo_argv : list string :=
  ["node"; "diceGame.js"; "2,2,4,4,9,9"; "6,8,1,1,8,6"; "7,5,3,7,5,3"].

Definition demo_tape : list N :=
  (repeat 7 32 ++ [1; 2] ++ repeat 9 32 ++ [4] ++ repeat 3 32 ++ [3])%N.

Definition demo_lines : list string := ["1"; "0"; "5"; "?"; "9"; "2"].

(** A computation fails with an error of the given class. *)
Definition fails_with {A} (class : string) (r : outcome A * world) : Prop :=
  exists e, r.1 = Thrown e /\ name e = class.

(** The round object and the world that a call of [start] leaves. *)
Definition round_after `{NodeCrypto} (p : Protocol.t) (w : world) : Protocol.t :=
  let k := map (fun i => byte_of_N (entropy i)) (seq (drawn w) 32) in
  let n := Z.of_N (entropy (drawn w + 32)) mod Protocol.range p in
  {| Protocol.range := Protocol.range p;
     Protocol.key := Some k;
     Protocol.computerNum := Some n;
     Protocol.hmac := Some (hmac_sha3_256_hex k (HmacCalculator.bufferFrom (Some n)));
     Protocol.userFirst := Protocol.userFirst p |}.

Definition world_after `{NodeCrypto} (p : Protocol.t) (w : world) : world :=
  {| drawn := S (drawn w + 32); stdin := stdin w;
     console := console w
                ++ [OutHmac (toUpperCase (default EmptyString (Protocol.hmac (round_after p w))))] |}.

(** The world before anything happened, with nothing to read. *)
Definition idle_world : world := {| drawn := 0; stdin := []; console := [] |}.

(** How the two dice are taken from the set [before]: the first die assigned
    is at some position [k] and the set loses exactly that position; the
    second die assigned is an element of what is left, and it stays there. *)
Definition assigned (before : list ref) (s' : DiceSelection.t) : Prop :=
  exists (first second : ref) (k : nat),
    before !! k = Some first
    /\ DiceSelection.dice s' = delete k before
    /\ second ∈ DiceSelection.dice s'
    /\ ((DiceSelection.userDice s' = Some first
         /\ DiceSelection.computerDice s' = Some second)
        \/ (DiceSelection.computerDice s' = Some first
            /\ DiceSelection.userDice s' = Some second)).

(** The console property that says nothing. *)
Definition anything : list event -> Prop := fun _ => True.

(** A configuration string is refused when it has fewer than two pieces or
    a piece that [Number] turns into [NaN]. *)
Definition refused (str : string) : Prop :=
  (length (split_comma str) < 2)%nat
  \/ exists tok, List.In tok (split_comma str) /\ isNaN (Number tok) = true.

(** The two errors of the constructor of [DiceConfigParser]. *)
Definition invalid_configuration (str : string) : exn :=
  Error ("Invalid dice configuration: " ++ quote ++ str ++ quote
         ++ ". Expected comma-separated numbers.")%string.

Definition too_few_dice : exn := Error "You must provide at least 3 dice configurations.".

(** What a game prints first, and a console on which the first round is
    open: the announcement, then a tag. *)
Definition first_move_announcement : string :=
  ("Let's determine who makes the first move." ++ newline
   ++ "I selected a random value in the range 0..1")%string.

Definition round_opened (evs : list event) : Prop :=
  exists tag rest, evs = Out first_move_announcement :: OutHmac tag :: rest.

(** The dice objects [main] creates for a command line. *)
Definition dice_store_of (process_argv : list string) : store :=
  match DiceConfigParser.new process_argv with
  | inl _ => []
  | inr dice => (DiceConfigParser.getDiceConfig dice).1
  end.

(** The first part of [main]: the parser, the dice objects, the selection. *)
Definition selection_of `{NodeCrypto} (process_argv lines : list string)
  : option DiceSelection.t :=
  match DiceConfigParser.new process_argv with
  | inl _ => None
  | inr dice =>
      let '(st, refs) := DiceConfigParser.getDiceConfig dice in
      match DiceSelection.start (DiceSelection.new refs (Protocol.new 2)) st
              (DiceConfigParser.getRawDiceConfig dice)
              {| drawn := 0; stdin := lines; console := [] |} with
      | (Returned selection, _) => Some selection
      | _ => None
      end
  end.

(** The ordered pairs of faces in which the first die shows more. *)
Definition winning_pairs (dieA dieB : list number) : list (number * number) :=
  List.filter (fun p => gt p.1 p.2) (list_prod dieA dieB).

(** The probability as the spec words it: the number of ordered pairs with
    [faceA > faceB] over the number of all pairs, ties included. *)
Definition winProbability_spec (dieA dieB : list number) : number :=
  div (ofZ (Z.of_nat (length (winning_pairs dieA dieB))))
      (ofZ (Z.of_nat (length dieA * length dieB))).

(** Modelled from the spec: [verify(secretNumber, key, tag)], of which the
    source has no counterpart (the program prints number and key and leaves
    the check to the user).  In the words of the spec it recomputes the tag,
    here with the [calcHmac] of the source, and compares for exact equality. *)
Definition verify `{NodeCrypto} (secretNumber : Z) (key : list Byte.byte) (tag : string) : M bool :=
  recomputed ← HmacCalculator.calcHmac (Some secretNumber) (Some key);
  mret (String.eqb recomputed tag).

(** The first line of a roll round. *)
Definition roll_intro (whose : string) : event :=
  Out ("It's time for " ++ toLowerCase whose ++ " roll." ++ newline
       ++ "I selected a random value in the range 0..5")%string.

(** * Further vocabulary *)

(** [ends_well P m Q]: from a world in [P], [m] returns [a] in a world in
    [Q a], or leaves the process with status 1, or waits with nothing left
    to read; it does not throw. *)
Definition ends_well {A} (P : world -> Prop) (m : M A) (Q : A -> world -> Prop) : Prop :=
  forall w, P w ->
    match m w with
    | (Returned a, w') => Q a w'
    | (Thrown _, _) => False
    | (Exited c, _) => c = 1
    | (Waiting, w') => stdin w' = []
    end.

(** A line that [readInput] passes over: no option of the menu, or the
    request for help. *)
Definition passed_over (options : list string) (line : string) : Prop :=
  includes (trim line) options = false \/ trim line = "?".

(** The number of commas of a configuration string. *)
Fixpoint commas (s : string) : nat :=
  match s with
  | EmptyString => 0
  | String c r => if Ascii.eqb c "," then S (commas r) else commas r
  end.

(** The ordered pairs of faces that are equal. *)
Definition tie_pairs (dieA dieB : list number) : list (number * number) :=
  List.filter (fun p => strictEq p.1 p.2) (list_prod dieA dieB).

(** The line that [result] prints for two roll results. *)
Definition verdict (user computer : option number) : event :=
  if DiceRoller.gt_result user computer then OutWin user computer
  else if DiceRoller.strictEq_result user computer then OutDraw user computer
  else OutLose user computer.

(** A console property that more output does not undo. *)
Definition stable (I : list event -> Prop) : Prop :=
  forall evs e, I evs -> I (evs ++ [e]).

(** The die a roll round rolls: the computer's for the round of ["My"]
    roll, the user's for any other. *)
Definition rolled_die (r : DiceRoller.t) (st : store) : option Dice.t :=
  (if DiceRoller.isUserDice (DiceRoller.whose r)
   then DiceRoller.userDice r else DiceRoller.computerDice r) ≫= fun a => st !! a.

(** The console ends with an answer that reads as the number [g]. *)
Definition answered (g : nat) (evs : list event) : Prop :=
  exists before line,
    evs = before ++ [Question "Your selection: " line]
    /\ g = NumberOfIndex (trim line).

(** The console shows, one after the other, an answer that reads as [g],
    the computer's number [n] and a key. *)
Definition guess_revealed (g : nat) (n : Z) (evs : list event) : Prop :=
  exists before line k after,
    evs = before ++ [Question "Your selection: " line; OutSelection (Some n); OutKey k]
          ++ after
    /\ g = NumberOfIndex (trim line).

(** [buffer.toString('hex')]: two lower-case hexadecimal digits per byte. *)
Definition hexDigit (n : N) : ascii :=
  if (n <? 10)%N then ascii_of_N (48 + n) else ascii_of_N (87 + n).

Fixpoint toHex (bytes : list Byte.byte) : string :=
  match bytes with
  | [] => EmptyString
  | b :: r =>
      String (hexDigit (Byte.to_N b / 16))
        (String (hexDigit (Byte.to_N b mod 16)) (toHex r))
  end.

(** The text that [printKey] writes inside [(KEY=...).] for the event
    [OutKey key]: [key.toString('hex').toUpperCase()]. *)
Definition keyText (key : list Byte.byte) : string := toUpperCase (toHex key).

(** Reading back a text of hexadecimal digits, two per byte. *)
Fixpoint fromHex (s : string) : option (list Byte.byte) :=
  match s with
  | EmptyString => Some []
  | String a (String b r) =>
      hi ← digit_of 16 a; lo ← digit_of 16 b; rest ← fromHex r;
      Some (byte_of_N (Z.to_N (16 * hi + lo)) :: rest)
  | String _ EmptyString => None
  end.

(** * Properties *)

(** ** The embedding on samples *)

Example Number_integer : Number "9" = ofZ 9 /\ Number " 12 " = ofZ 12.
Proof. split; vm_compute; reflexivity. Qed.

(** 0.1 is the double 0x3FB999999999999A. *)
Example Number_tenth : Number "0.1" = S754_finite false 7205759403792794 (-56).
Proof. vm_compute. reflexivity. Qed.

Example Number_forms :
  Number "1e3" = ofZ 1000 /\ Number "5.e3" = ofZ 5000 /\ Number ".5" = div (ofZ 1) (ofZ 2)
  /\ Number "0x1F" = ofZ 31 /\ Number "-Infinity" = S754_infinity true
  /\ Number "1e400" = S754_infinity false /\ Number "-0" = S754_zero true.
Proof. split_and!; vm_compute; reflexivity. Qed.

(** Ties go to the even mantissa: 2^53 + 1 reads as 2^53. *)
Example Number_rounds : Number "9007199254740993" = ofZ 9007199254740992.
Proof. vm_compute. reflexivity. Qed.

Example Number_empty : Number EmptyString = S754_zero false /\ Number "  " = S754_zero false.
Proof. split; vm_compute; reflexivity. Qed.

Example Number_NaN :
  isNaN (Number "abc") = true /\ isNaN (Number "1,2") = true
  /\ isNaN (Number ".") = true /\ isNaN (Number "-0x1F") = true
  /\ isNaN (Number "1e") = true /\ isNaN (Number "1_0") = true.
Proof. split_and!; vm_compute; reflexivity. Qed.

Example split_comma_pieces :
  split_comma "2,2,4,,9," = ["2"; "2"; "4"; EmptyString; "9"; EmptyString]
  /\ split_comma EmptyString = [EmptyString].
Proof. split; reflexivity. Qed.

Example trim_both_ends : trim "  a b  " = "a b".
Proof. reflexivity. Qed.

(** The demo game ends with the user winning 9 against 1. *)
Example demo_game :
  let '(o, w) := @run (tapeCrypto demo_tape) demo_argv demo_lines in
  o = Returned tt /\ stdin w = [] /\ drawn w = 100%nat
  /\ last (console w) = Some (OutWin (Some (ofZ 9)) (Some (ofZ 1))).
Proof. vm_compute. by split_and!. Qed.

(** The observer refuses a number shown before any answer, a second tag
    while a commitment is open, a number shown after a line that was not
    accepted, and a fair number line printed before the answer or with
    another number than the revealed one. *)
Example observer_refuses :
  observe_all fresh_observer [OutHmac "T"; OutSelection (Some 1)] = None
  /\ observe_all fresh_observer [Question "p" "1"; OutHmac "T"; OutSelection (Some 1)] = None
  /\ observe_all fresh_observer [OutHmac "T"; OutHmac "U"] = None
  /\ observe_all fresh_observer
       [OutHmac "T"; Question "p" "1"; Out "late"; OutSelection (Some 1)] = None
  /\ observe_all fresh_observer
       [OutHmac "T"; OutFair (Some 3) 0 (Some 3); Question "p" "0";
        OutSelection (Some 3); OutKey []] = None
  /\ observe_all fresh_observer
       [OutHmac "T"; Question "p" "0"; OutFair (Some 3) 0 (Some 3);
        OutSelection (Some 3); OutKey []] = None
  /\ observe_all fresh_observer
       [OutHmac "T"; OutRoll "My" (Some (ofZ 4)); Question "p" "0";
        OutSelection (Some 3); OutKey []] = None
  /\ observe_all fresh_observer
       [OutHmac "T"; Question "p" "1"; OutSelection (Some 1); OutKey [];
        OutFair (Some 2) 1 (Some 3)] = None
  /\ observe_all fresh_observer
       [OutHmac "T"; Question "p" "1"; OutSelection (Some 1); OutKey [];
        OutFair (Some 1) 1 (Some 2)]
     = Some {| current := Revealed (Some 1); rounds := 1 |}.
Proof. by split_and!. Qed.

(** ** A program logic for [M] *)

Lemma hoare_ret {A} (a : A) (P : world -> Prop) Q E :
  (forall w, P w -> Q a w) -> hoare P (mret a) Q E.
Proof. intros HQ w Hw. apply HQ, Hw. Qed.

Lemma hoare_bind {A B} (m : M A) (f : A -> M B) P R Q E :
  hoare P m R E -> (forall a, hoare (R a) (f a) Q E) -> hoare P (m ≫= f) Q E.
Proof.
  intros Hm Hf w Hw. specialize (Hm w Hw).
  unfold mbind, M_bind. destruct (m w) as [[a| | |] w']; try exact Hm.
  apply (Hf a w' Hm).
Qed.

Lemma hoare_log e (P : world -> Prop) Q E :
  (forall w, P w -> Q tt (emit [e] w)) -> hoare P (log e) Q E.
Proof. intros HQ w Hw. apply HQ, Hw. Qed.

Lemma hoare_throw {A} e (P : world -> Prop) (Q : A -> world -> Prop) (E : world -> Prop) :
  (forall w, P w -> E w) -> hoare P (throw e) Q E.
Proof. intros HE w Hw. apply HE, Hw. Qed.

Lemma hoare_exit {A} c (P : world -> Prop) (Q : A -> world -> Prop) (E : world -> Prop) :
  (forall w, P w -> E w) -> hoare P (exit c) Q E.
Proof. intros HE w Hw. apply HE, Hw. Qed.

Lemma hoare_weaken {A} (m : M A) (P P' : world -> Prop) (Q Q' : A -> world -> Prop)
    (E E' : world -> Prop) :
  hoare P' m Q' E' ->
  (forall w, P w -> P' w) -> (forall a w, Q' a w -> Q a w) ->
  (forall w, E' w -> E w) ->
  hoare P m Q E.
Proof.
  intros Hm HP HQ HE w Hw. specialize (Hm w (HP w Hw)).
  destruct (m w) as [[a| | |] w']; auto.
Qed.

Section RandomRules.
Context `{NodeCrypto}.

Lemma isSafeInteger_range max : 0 < max < 2 ^ 48 -> isSafeInteger max = true.
Proof. intros ?. unfold isSafeInteger. apply Z.ltb_lt. lia. Qed.

Lemma isSafeInteger_spec max : isSafeInteger max = true <-> - 2 ^ 53 < max < 2 ^ 53.
Proof. unfold isSafeInteger. rewrite Z.ltb_lt. lia. Qed.

(** The random source leaves the console alone; an integer drawn below
    [max] is in range, and a bad [max] throws at once. *)
Lemma hoare_randomInt max (P : world -> Prop) Q E :
  (forall w w' z, P w -> console w' = console w -> 0 <= z < max -> Q z w') ->
  (forall w, P w -> E w) ->
  hoare P (randomInt max) Q E.
Proof.
  intros HQ HE w Hw. unfold randomInt.
  destruct (isSafeInteger max); cbn [negb]; [| apply HE, Hw].
  destruct ((0 <? max) && (max <? 2 ^ 48)) eqn:Hmax.
  - apply andb_prop in Hmax as [H0 _]. apply Z.ltb_lt in H0.
    eapply HQ; [exact Hw | reflexivity |]. apply Z.mod_pos_bound, H0.
  - apply HE, Hw.
Qed.

Lemma hoare_randomBytes n (P : world -> Prop) Q E :
  (forall w w' bs, P w -> console w' = console w -> Q bs w') ->
  hoare P (randomBytes n) Q E.
Proof. intros HQ w Hw. unfold randomBytes. eapply HQ; [exact Hw | reflexivity]. Qed.

End RandomRules.

(** ** The menu *)

Lemma emit_app evs1 evs2 w : emit evs2 (emit evs1 w) = emit (evs1 ++ evs2) w.
Proof. unfold emit; simpl. by rewrite <- app_assoc. Qed.

Lemma emit_nil w : emit [] w = w.
Proof. destruct w; unfold emit; simpl. by rewrite app_nil_r. Qed.

(** What [options.forEach] prints and collects. *)
Lemma printOptions_eq {A} (options : list A) w :
  Menu.printOptions options w =
    (Returned (map ofIndex (seq 0 (length options))),
     emit (map OutOption (seq 0 (length options))) w).
Proof.
  unfold Menu.printOptions. generalize (length options) as n. clear options.
  induction n as [|n IH].
  - simpl. by rewrite emit_nil.
  - rewrite seq_S, foldl_app. simpl.
    unfold mbind at 1, M_bind at 1. rewrite IH.
    unfold mbind, M_bind, log, mret, M_ret; simpl.
    rewrite !map_app; simpl. f_equal. unfold emit; simpl. by rewrite <- app_assoc.
Qed.

Lemma promptSelection_eq {A} message (options : list A) diceList w :
  Menu.promptSelection message options diceList w =
    Menu.readInput "Your selection: " (menu_options (length options)) diceList
      (emit (menu_lines message (length options)) w).
Proof.
  unfold Menu.promptSelection.
  unfold mbind at 1, M_bind at 1. simpl.
  unfold mbind at 1, M_bind at 1. rewrite printOptions_eq.
  unfold mbind, M_bind, log; simpl. unfold menu_lines, menu_options.
  do 2 f_equal. unfold emit; simpl. f_equal.
  rewrite <- !app_assoc. reflexivity.
Qed.

Lemma NumberOfIndex_ofIndex i : NumberOfIndex (ofIndex i) = i.
Proof.
  unfold NumberOfIndex, ofIndex. rewrite NilEmpty.usu. apply DecimalNat.Unsigned.of_to.
Qed.

(** An accepted answer that is neither [X] nor [?] is the text of an index
    of the menu. *)
Lemma menu_answer_index n answer :
  includes answer (menu_options n) = true ->
  String.eqb answer "?" = false -> String.eqb answer "X" = false ->
  (NumberOfIndex answer < n)%nat.
Proof.
  unfold includes, menu_options. intros Hin Hq Hx.
  apply existsb_exists in Hin as (opt & Hopt & Heq).
  apply String.eqb_eq in Heq. subst opt.
  apply in_app_or in Hopt as [Hopt | Hopt].
  - apply in_map_iff in Hopt as (i & <- & Hi). rewrite NumberOfIndex_ofIndex.
    apply in_seq in Hi. lia.
  - simpl in Hopt. destruct Hopt as [<- | [<- | []]]; discriminate.
Qed.

(** The loop of [readInput], for a property [I] of the console that holds
    when a line is awaited and a property [J] that holds once a line is read:
    the loop never throws, waits in [I], and returns or exits in [J], the
    returned number being an index of the menu. *)
Lemma readInput_loop_inv prompt n diceList (I J : list event -> Prop) :
  (forall evs line, I evs -> J (evs ++ [Question prompt line])) ->
  (forall evs e, J evs -> chatter e -> I (evs ++ [e])) ->
  forall lines w, I (console w) ->
    match Menu.readInput_loop prompt (menu_options n) diceList lines w with
    | (Returned i, w') => J (console w') /\ (i < n)%nat
    | (Exited c, w') => J (console w') /\ c = 1
    | (Waiting, w') => I (console w')
    | (Thrown _, _) => False
    end.
Proof.
  intros Hread Hchat. induction lines as [|line rest IH]; intros w Hw; simpl.
  - exact Hw.
  - destruct (includes (trim line) (menu_options n)) eqn:Hin; simpl.
    + destruct (String.eqb (trim line) "?") eqn:Hq.
      * apply IH. simpl. apply Hchat; [apply Hread, Hw | right; eauto].
      * destruct (String.eqb (trim line) "X") eqn:Hx; simpl.
        -- split; [apply Hread, Hw | reflexivity].
        -- split; [apply Hread, Hw | by apply menu_answer_index].
    + apply IH. simpl. apply Hchat; [apply Hread, Hw | by left].
Qed.

Lemma hoare_promptSelection {A} message (options : list A) diceList
    (I J : list event -> Prop) (P : world -> Prop) Q (E : world -> Prop) :
  (forall evs line, I evs -> J (evs ++ [Question "Your selection: " line])) ->
  (forall evs e, J evs -> chatter e -> I (evs ++ [e])) ->
  (forall w, P w -> I (console w ++ menu_lines message (length options))) ->
  (forall i w, J (console w) -> (i < length options)%nat -> Q i w) ->
  (forall w, I (console w) \/ J (console w) -> E w) ->
  hoare P (Menu.promptSelection message options diceList) Q E.
Proof.
  intros Hread Hchat Hmenu HQ HE w Hw. rewrite promptSelection_eq. unfold Menu.readInput.
  pose proof (readInput_loop_inv "Your selection: " (length options) diceList I J
                Hread Hchat (stdin (emit (menu_lines message (length options)) w))
                (emit (menu_lines message (length options)) w) (Hmenu w Hw)) as Hloop.
  destruct Menu.readInput_loop as [[i| |c|] w'].
  - destruct Hloop. by apply HQ.
  - destruct Hloop.
  - destruct Hloop. apply HE. by right.
  - apply HE. by left.
Qed.

(** ** Console properties along the protocol *)

Section ProtocolRules.
Context `{NodeCrypto}.

Lemma hoare_log_console e (I I' E : list event -> Prop) :
  (forall evs, I evs -> I' (evs ++ [e])) ->
  hoare (on_console I) (log e) (fun _ => on_console I') (on_console E).
Proof. intros HI. apply hoare_log. intros w Hw. apply HI, Hw. Qed.

Lemma hoare_rand max (I E : list event -> Prop) :
  (forall evs, I evs -> E evs) ->
  hoare (on_console I) (RandomGenerator.rand max)
    (fun z w => I (console w) /\ 0 <= z < max) (on_console E).
Proof.
  intros HE. apply hoare_randomInt.
  - intros w w' z Hw Hc Hz. by rewrite Hc.
  - intros w Hw. apply HE, Hw.
Qed.

(** [start] prints the tag and nothing else; it stops early only when the
    range is refused by the random source, before anything is printed. *)
Lemma hoare_start p (I I' E : list event -> Prop) :
  (forall evs h, I evs -> I' (evs ++ [OutHmac h])) ->
  (forall evs, I evs -> E evs) ->
  hoare (on_console I) (Protocol.start p)
    (fun p' w => I' (console w) /\ started p p') (on_console E).
Proof.
  intros Hh HE w Hw.
  unfold Protocol.start, Protocol.generateKey, Protocol.generateRandomIndex,
    Protocol.computeHmac, RandomGenerator.key, RandomGenerator.rand,
    HmacCalculator.calcHmac, HmacCalculator.printHmac.
  unfold mbind, M_bind, mret, M_ret, randomBytes, randomInt; simpl.
  destruct (isSafeInteger (Protocol.range p)); simpl; [| apply HE, Hw].
  destruct ((0 <? Protocol.range p) && (Protocol.range p <? 2 ^ 48)) eqn:Hr; simpl.
  - apply andb_prop in Hr as [H0 _]. apply Z.ltb_lt in H0.
    split; [apply Hh, Hw |].
    unfold started; simpl. split_and!; try done.
    + eexists; split; reflexivity.
    + eexists; split; [reflexivity |]. apply Z.mod_pos_bound, H0.
  - apply HE, Hw.
Qed.

(** [reveal] prints the number, then the key; with no key it throws in
    between. *)
Lemma hoare_reveal p (I I1 I2 E : list event -> Prop) :
  (forall evs, I evs -> I1 (evs ++ [OutSelection (Protocol.computerNum p)])) ->
  (forall evs k, I1 evs -> I2 (evs ++ [OutKey k])) ->
  (forall evs, I1 evs -> E evs) ->
  hoare (on_console I) (Protocol.reveal p) (fun _ => on_console I2) (on_console E).
Proof.
  intros H1 H2 HE w Hw. unfold Protocol.reveal, RandomGenerator.printKey.
  unfold mbind, M_bind, log; simpl.
  destruct (Protocol.key p) as [k|]; simpl.
  - apply H2, H1, Hw.
  - apply HE, H1, Hw.
Qed.

Lemma hoare_prompt_console {A} message (options : list A) diceList
    (I J E : list event -> Prop) :
  (forall evs line, I evs -> J (evs ++ [Question "Your selection: " line])) ->
  (forall evs e, J evs -> chatter e -> I (evs ++ [e])) ->
  (forall evs e, I evs -> (exists l, e = Out l) \/ (exists i, e = OutOption i) ->
                 I (evs ++ [e])) ->
  (forall evs, I evs \/ J evs -> E evs) ->
  hoare (on_console I) (Menu.promptSelection message options diceList)
    (fun i w => J (console w) /\ (i < length options)%nat) (on_console E).
Proof.
  intros Hread Hchat Hquiet HE.
  apply (hoare_promptSelection _ _ _ I J); [done | done | | by split | ].
  2: { intros w Hw. apply HE, Hw. }
  - intros w Hw. unfold on_console in Hw. unfold menu_lines.
    change (Out message :: ?l) with ([Out message] ++ l).
    rewrite !app_assoc.
    assert (Hopts : forall l, I l -> forall k n,
               I (l ++ map OutOption (seq k n))).
    { intros l Hl k n. revert l Hl k.
      induction n as [|n IH]; intros l Hl k; simpl.
      - by rewrite app_nil_r.
      - change (OutOption k :: ?r) with ([OutOption k] ++ r). rewrite app_assoc.
        apply IH. apply Hquiet; eauto. }
    change [Out "X - exit"; Out "? - help"] with ([Out "X - exit"] ++ [Out "? - help"]).
    rewrite app_assoc.
    apply Hquiet; [| eauto]. apply Hquiet; [| eauto].
    apply Hopts. apply Hquiet; eauto.
Qed.

End ProtocolRules.

(** ** The order of disclosure *)





(** One step of a sequence: the rule [lem] for the first command, whose
    precondition is the console part of what is known. *)
Tactic Notation "hnext" open_constr(lem) :=
  eapply hoare_bind;
  [ eapply hoare_weaken;
    [ eapply lem
    | intros ? Hpre; first [exact Hpre | exact (proj1 Hpre)]
    | intros ? ? Hpost; exact Hpost
    | intros ? Herr; exact Herr ]
  | ].

Section Order.
Context `{NodeCrypto}.
















Lemma rollOf_console st d index (I E : list event -> Prop) :
  (forall evs, I evs -> E evs) ->
  hoare (on_console I) (DiceRoller.rollOf st d index)
    (fun _ => on_console I) (on_console E).
Proof.
  intros HE w Hw. unfold DiceRoller.rollOf.
  destruct (d ≫= _); simpl; [exact Hw | apply HE, Hw].
Qed.




End Order.


(** ** The range of the roll rounds *)

(** A pure fact kept in a precondition can be taken out of it. *)
Lemma hoare_assume {A} (fact : Prop) (P : world -> Prop) (m : M A) Q E :
  (fact -> hoare P m Q E) -> hoare (fun w => P w /\ fact) m Q E.
Proof. intros Hm w [Hw Hf]. by apply Hm. Qed.

Lemma secrets_snoc evs e :
  secrets_below_5 evs -> secret_below_5 e -> secrets_below_5 (evs ++ [e]).
Proof. intros Hevs He. apply Forall_app. split; [done | by constructor]. Qed.

Ltac secrets_side :=
  intros; unfold chatter in *;
  repeat match goal with
         | H : _ \/ _ |- _ => destruct H
         | H : exists _, _ |- _ => destruct H
         end;
  subst;
  first [ assumption | apply secrets_snoc; [assumption | exact I] ].

Section RollRange.
Context `{NodeCrypto}.

Lemma log_secrets e :
  secret_below_5 e ->
  hoare (on_console secrets_below_5) (log e)
    (fun _ => on_console secrets_below_5) (on_console secrets_below_5).
Proof. intros He. apply hoare_log_console. intros. by apply secrets_snoc. Qed.

Lemma prompt_secrets {A} message (options : list A) diceList :
  hoare (on_console secrets_below_5)
    (Menu.promptSelection message options diceList)
    (fun i w => secrets_below_5 (console w) /\ (i < length options)%nat)
    (on_console secrets_below_5).
Proof. apply hoare_prompt_console; secrets_side. Qed.

Lemma DiceSelection_start_secrets s st diceList :
  hoare (on_console secrets_below_5) (DiceSelection.start s st diceList)
    (fun _ => on_console secrets_below_5) (on_console secrets_below_5).
Proof.
  unfold DiceSelection.start.
  hnext log_secrets; [exact I | intros ?].
  hnext (hoare_start (DiceSelection.protocol s) secrets_below_5 secrets_below_5);
    [secrets_side | secrets_side | intros p].
  hnext @prompt_secrets. intros userGuess.
  hnext (hoare_reveal _ secrets_below_5 secrets_below_5 secrets_below_5);
    [secrets_side | secrets_side | secrets_side | intros ?].
  destruct Protocol.isUserFirst.
  - hnext @prompt_secrets. intros index.
    hnext log_secrets; [exact I | intros ?].
    hnext (hoare_rand _ secrets_below_5); [secrets_side | intros r].
    hnext log_secrets; [exact I | intros ?].
    apply hoare_ret. intros w Hw. exact Hw.
  - hnext (hoare_rand _ secrets_below_5); [secrets_side | intros index].
    hnext log_secrets; [exact I | intros ?].
    hnext @prompt_secrets. intros i.
    hnext log_secrets; [exact I | intros ?].
    apply hoare_ret. intros w Hw. exact Hw.
Qed.

(** A roll round on a round object of range 5, as [main] builds it. *)
Lemma DiceRoller_start_secrets r st diceList :
  Protocol.range (DiceRoller.protocol r) = 5 ->
  hoare (on_console secrets_below_5) (DiceRoller.start r st diceList)
    (fun _ => on_console secrets_below_5) (on_console secrets_below_5).
Proof.
  intros Hrange. unfold DiceRoller.start.
  hnext log_secrets; [exact I | intros ?].
  eapply hoare_bind;
    [apply (hoare_start _ secrets_below_5 secrets_below_5); secrets_side |].
  intros p. cbv beta. apply hoare_assume. intros (_ & _ & _ & (n & Hn & Hlt) & _).
  hnext @prompt_secrets. intros userSelection.
  hnext (hoare_reveal _ secrets_below_5 secrets_below_5 secrets_below_5);
    [secrets_side | secrets_side | secrets_side | intros ?].
  hnext log_secrets; [| intros ?].
  { simpl. exists n. split; [exact Hn | lia]. }
  eapply hoare_bind.
  { destruct DiceRoller.isUserDice; apply rollOf_console; secrets_side. }
  intros result.
  hnext log_secrets; [exact I | intros ?].
  apply hoare_ret. intros w Hw. exact Hw.
Qed.

Lemma main_secrets process_argv :
  hoare (on_console secrets_below_5) (main process_argv)
    (fun _ => on_console secrets_below_5) (on_console secrets_below_5).
Proof.
  unfold main. destruct DiceConfigParser.new as [e | dice].
  - hnext log_secrets; [exact I | intros ?].
    apply hoare_exit. intros w Hw. exact Hw.
  - destruct DiceConfigParser.getDiceConfig as [st refs].
    hnext DiceSelection_start_secrets. intros selection.
    hnext log_secrets; [exact I | intros ?].
    hnext DiceRoller_start_secrets; [reflexivity | intros computerResult].
    hnext DiceRoller_start_secrets; [reflexivity | intros userResult].
    unfold DiceRoller.result.
    destruct DiceRoller.gt_result; [| destruct DiceRoller.strictEq_result];
      by apply log_secrets.
Qed.

End RollRange.

(** C1 (the code departs from it).  The roll rounds are built with
    [new Protocol(5)]: in every run, each line that shows the fair number of
    a roll shows a computer number from 0 to 4.  The value 5, which the
    announced range 0..5 includes, is never selected. *)
Theorem roll_round_secret_below_5 `{NodeCrypto} (process_argv lines : list string) :
  forall c u r, OutFair c u r ∈ console (run process_argv lines).2 ->
    exists n, c = Some n /\ 0 <= n < 5.
Proof.
  intros c u r Hin.
  pose proof (main_secrets process_argv {| drawn := 0; stdin := lines; console := [] |}
                (List.Forall_nil _)) as Hrun.
  unfold run in Hin.
  assert (Hall : secrets_below_5 (console (main process_argv
                   {| drawn := 0; stdin := lines; console := [] |}).2)).
  { destruct main as [[?| | |] w]; exact Hrun. }
  unfold secrets_below_5 in Hall. rewrite Forall_forall in Hall.
  apply (Hall _ Hin).
Qed.

Lemma roll_round_secret_below_5_witness :
  exists n, Some 4 = Some n /\ 0 <= n < 5.
Proof.
  apply (@roll_round_secret_below_5 (tapeCrypto demo_tape) demo_argv demo_lines
           (Some 4) 5%nat (Some 3)).
  apply list_elem_of_In. vm_compute. tauto.
Defined.

(** ** The round object has no state check *)

Section StartTwice.
Context `{NodeCrypto}.

(** [start] succeeds on any round object with a range the random source
    accepts, whatever the object holds already. *)
Lemma start_eq p w :
  0 < Protocol.range p < 2 ^ 48 ->
  Protocol.start p w = (Returned (round_after p w), world_after p w).
Proof.
  intros [Hlo Hhi].
  unfold Protocol.start, Protocol.generateKey, Protocol.generateRandomIndex,
    Protocol.computeHmac, RandomGenerator.key, RandomGenerator.rand,
    HmacCalculator.calcHmac, HmacCalculator.printHmac.
  unfold mbind, M_bind, mret, M_ret, randomBytes, randomInt.
  cbn [Protocol.range Protocol.key Protocol.computerNum Protocol.hmac
       Protocol.userFirst drawn stdin console].
  rewrite (isSafeInteger_range (Protocol.range p)) by done.
  apply Z.ltb_lt in Hlo, Hhi. rewrite Hlo, Hhi.
  reflexivity.
Qed.

End StartTwice.

(** C2 (amended).  On a fresh round object [reveal] prints the line of the
    selection with [null] in it and then fails with a TypeError on the missing
    key; no key is printed.  [start] called twice on one round object does not
    fail: the second call draws a new key and number and prints a second tag. *)
Theorem reveal_unstarted_throws_TypeError_start_twice_succeeds
    `{NodeCrypto} (range : Z) (w : world) :
  0 < range < 2 ^ 48 ->
  Protocol.reveal (Protocol.new range) w
  = (Thrown (TypeError "Cannot read properties of null (reading 'toString')"),
     emit [OutSelection None] w)
  /\ let p1 := round_after (Protocol.new range) w in
     let w1 := world_after (Protocol.new range) w in
     Protocol.start (Protocol.new range) w = (Returned p1, w1)
     /\ Protocol.start p1 w1 = (Returned (round_after p1 w1), world_after p1 w1)
     /\ drawn (world_after p1 w1) = (drawn w + 66)%nat
     /\ exists tag1 tag2,
          console (world_after p1 w1) = console w ++ [OutHmac tag1; OutHmac tag2].
Proof.
  intros Hrange. split; [reflexivity |].
  cbv zeta. split_and!.
  - by apply start_eq.
  - by apply start_eq.
  - simpl. lia.
  - do 2 eexists. unfold world_after at 1. cbn [console].
    unfold world_after at 1. cbn [console].
    rewrite <- app_assoc. reflexivity.
Qed.

Lemma reveal_unstarted_throws_TypeError_start_twice_succeeds_witness :
  Protocol.reveal (Protocol.new 2) idle_world
  = (Thrown (TypeError "Cannot read properties of null (reading 'toString')"),
     emit [OutSelection None] idle_world)
  /\ exists p1 w1 p2 w2,
       @Protocol.start (tapeCrypto []) (Protocol.new 2) idle_world = (Returned p1, w1)
       /\ @Protocol.start (tapeCrypto []) p1 w1 = (Returned p2, w2).
Proof.
  destruct (@reveal_unstarted_throws_TypeError_start_twice_succeeds
              (tapeCrypto []) 2 idle_world ltac:(lia)) as (Hreveal & Hs1 & Hs2 & _).
  split; [exact Hreveal |].
  do 4 eexists. split; [exact Hs1 | exact Hs2].
Defined.

(** C2 as stated fails: on a fresh round object of range 2, [reveal] fails
    with a TypeError, not a ProtocolStateError, and a second [start] after a
    first one returns instead of failing. *)
Lemma no_ProtocolStateError :
  ~ fails_with "ProtocolStateError" (Protocol.reveal (Protocol.new 2) idle_world)
  /\ ~ (forall p1 w1,
          @Protocol.start (tapeCrypto []) (Protocol.new 2) idle_world = (Returned p1, w1) ->
          fails_with "ProtocolStateError" (@Protocol.start (tapeCrypto []) p1 w1)).
Proof.
  split.
  - intros (e & He & Hname). vm_compute in He. injection He as <-. discriminate Hname.
  - intros Hclaim.
    pose proof (@start_eq (tapeCrypto []) (Protocol.new 2) idle_world ltac:(simpl; lia))
      as Hs1.
    destruct (Hclaim _ _ Hs1) as (e & He & _).
    rewrite start_eq in He by (simpl; lia). discriminate He.
Qed.

(** ** The dice set across the selection *)

Lemma NoDup_delete_lookup {A} (l : list A) k x :
  NoDup l -> l !! k = Some x -> x ∉ delete k l.
Proof.
  intros Hnd Hk. rewrite delete_take_drop.
  rewrite <- (take_drop_middle l k x Hk) in Hnd.
  apply NoDup_app in Hnd as (_ & Hdisj & Hnd).
  apply NoDup_cons in Hnd as [Hx _].
  intros Hin. apply elem_of_app in Hin as [Hin | Hin]; [| done].
  apply (Hdisj x Hin). by left.
Qed.

Section Selection.
Context `{NodeCrypto}.

Lemma DiceSelection_start_assigned s st diceList :
  hoare (on_console anything) (DiceSelection.start s st diceList)
    (fun s' _ => assigned (DiceSelection.dice s) s') (on_console anything).
Proof.
  unfold DiceSelection.start.
  hnext (hoare_log_console _ anything anything anything); [done | intros ?].
  hnext (hoare_start _ anything anything anything); [done | done | intros p].
  hnext (@hoare_prompt_console _ _ _ _ anything anything anything);
    [done | done | done | done | intros userGuess].
  hnext (hoare_reveal _ anything anything anything anything);
    [done | done | done | intros ?].
  destruct Protocol.isUserFirst.
  - eapply hoare_bind;
      [apply (@hoare_prompt_console _ _ _ _ anything anything anything); done |].
    intros index. cbv beta. apply hoare_assume. intros Hindex.
    hnext (hoare_log_console _ anything anything anything); [done | intros ?].
    eapply hoare_bind; [apply (hoare_rand _ anything anything); done |].
    intros r. cbv beta. apply hoare_assume. intros Hr.
    hnext (hoare_log_console _ anything anything anything); [done | intros ?].
    apply hoare_ret. intros w _.
    destruct (lookup_lt_is_Some_2 (DiceSelection.dice s) index Hindex) as [first Hfirst].
    destruct (lookup_lt_is_Some_2 (delete index (DiceSelection.dice s)) (Z.to_nat r))
      as [second Hsecond]; [lia |].
    exists first, second, index. simpl. split_and!; [done | done | |].
    + by eapply list_elem_of_lookup_2.
    + left. by rewrite Hfirst, Hsecond.
  - eapply hoare_bind; [apply (hoare_rand _ anything anything); done |].
    intros index. cbv beta. apply hoare_assume. intros Hindex.
    hnext (hoare_log_console _ anything anything anything); [done | intros ?].
    eapply hoare_bind;
      [apply (@hoare_prompt_console _ _ _ _ anything anything anything); done |].
    intros i. cbv beta. apply hoare_assume. intros Hi.
    hnext (hoare_log_console _ anything anything anything); [done | intros ?].
    apply hoare_ret. intros w _.
    destruct (lookup_lt_is_Some_2 (DiceSelection.dice s) (Z.to_nat index))
      as [first Hfirst]; [lia |].
    destruct (lookup_lt_is_Some_2 (delete (Z.to_nat index) (DiceSelection.dice s)) i Hi)
      as [second Hsecond].
    exists first, second, (Z.to_nat index). simpl. split_and!; [done | done | |].
    + by eapply list_elem_of_lookup_2.
    + right. by rewrite Hfirst, Hsecond.
Qed.

End Selection.

(** ** The configuration parser *)

Lemma map_throwing_inr {A B} (f : A -> exn + B) l ys :
  DiceConfigParser.map_throwing f l = inr ys <-> Forall2 (fun x y => f x = inr y) l ys.
Proof.
  revert ys. induction l as [|x r IH]; intros ys; simpl.
  - split; [intros [= <-]; constructor | by inversion 1].
  - destruct (f x) as [e | y] eqn:Hfx.
    + split; [done | inversion 1; congruence].
    + destruct (DiceConfigParser.map_throwing f r) as [e | ys'].
      * split; [done |]. inversion 1 as [|? y' ? ys'' _ Hr]; subst.
        by apply IH in Hr.
      * split.
        -- intros [= <-]. constructor; [done | by apply IH].
        -- inversion 1 as [|? y' ? ys'' Hy Hr]; subst.
           apply IH in Hr. congruence.
Qed.

(** The traversal fails exactly at the first element the callback refuses. *)
Lemma map_throwing_inl {A B} (f : A -> exn + B) l e :
  DiceConfigParser.map_throwing f l = inl e <->
  exists before x after,
    l = before ++ x :: after
    /\ Forall (fun a => exists y, f a = inr y) before
    /\ f x = inl e.
Proof.
  revert e. induction l as [|x r IH]; intros e; simpl.
  - split; [done |]. intros (before & x & after & Hl & _). by destruct before.
  - split.
    + destruct (f x) as [e' | y] eqn:Hfx.
      * intros [= <-]. exists [], x, r. by split_and!.
      * destruct (DiceConfigParser.map_throwing f r) as [e' | ys']; [| done].
        intros [= <-].
        destruct (proj1 (IH e') eq_refl) as (before & x' & after & -> & Hb & Hx).
        exists (x :: before), x', after. split_and!; [done | | done].
        constructor; eauto.
    + intros (before & x' & after & Hl & Hbefore & Hx).
      destruct before as [|b before]; simpl in Hl; injection Hl as <- ->.
      * by rewrite Hx.
      * apply Forall_cons in Hbefore as [[y Hy] Hbefore]. rewrite Hy.
        assert (Hr : DiceConfigParser.map_throwing f (before ++ x' :: after) = inl e).
        { apply IH. by exists before, x', after. }
        by rewrite Hr.
Qed.

Lemma parse_inr str cfg :
  DiceConfigParser.parse str = inr cfg <->
  cfg = map Number (split_comma str)
  /\ (2 <= length cfg)%nat
  /\ Forall (fun x => isNaN x = false) cfg.
Proof.
  unfold DiceConfigParser.parse.
  destruct (length (map Number (split_comma str)) <? 2)%nat eqn:Hlen; simpl.
  - apply Nat.ltb_lt in Hlen. split; [done |]. intros (-> & Hlen' & _). lia.
  - apply Nat.ltb_ge in Hlen.
    destruct (existsb isNaN (map Number (split_comma str))) eqn:Hnan.
    + split; [done |]. intros (-> & _ & Hall).
      apply existsb_exists in Hnan as (x & Hx & Hxnan).
      rewrite List.Forall_forall in Hall. rewrite (Hall x Hx) in Hxnan. done.
    + split.
      * intros [= <-]. split_and!; [done | done |].
        apply List.Forall_forall. intros x Hx.
        destruct (isNaN x) eqn:Hxnan; [| done].
        assert (existsb isNaN (map Number (split_comma str)) = true); [| congruence].
        apply existsb_exists. eauto.
      * by intros (-> & _ & _).
Qed.

Lemma parse_inl str e :
  DiceConfigParser.parse str = inl e <-> refused str /\ e = invalid_configuration str.
Proof.
  unfold DiceConfigParser.parse, refused.
  destruct (length (map Number (split_comma str)) <? 2)%nat eqn:Hlen; simpl.
  - apply Nat.ltb_lt in Hlen. rewrite length_map in Hlen.
    split; [intros [= <-]; split; [by left | done] | by intros [_ ->]].
  - apply Nat.ltb_ge in Hlen. rewrite length_map in Hlen.
    destruct (existsb isNaN (map Number (split_comma str))) eqn:Hnan.
    + split; [| by intros [_ ->]]. intros [= <-]. split; [| done]. right.
      apply existsb_exists in Hnan as (x & Hx & Hxnan).
      apply in_map_iff in Hx as (tok & <- & Htok). eauto.
    + split; [done |]. intros [[Hshort | (tok & Htok & Htoknan)] _]; [lia |].
      assert (existsb isNaN (map Number (split_comma str)) = true); [| congruence].
      apply existsb_exists. exists (Number tok). split; [| done].
      apply in_map_iff. eauto.
Qed.

(** What the constructor accepts, and what it holds then. *)
Lemma new_inr process_argv p :
  DiceConfigParser.new process_argv = inr p <->
  (3 <= length (drop 2 process_argv))%nat
  /\ DiceConfigParser.argv p = drop 2 process_argv
  /\ Forall2 (fun str cfg => DiceConfigParser.parse str = inr cfg)
       (drop 2 process_argv) (DiceConfigParser.diceConfig p).
Proof.
  unfold DiceConfigParser.new.
  destruct (length (drop 2 process_argv) <? 3)%nat eqn:Hlen.
  - apply Nat.ltb_lt in Hlen. split; [done |]. intros (? & _). lia.
  - apply Nat.ltb_ge in Hlen.
    destruct (DiceConfigParser.map_throwing _ _) as [e | cfg] eqn:Hmap.
    + split; [done |]. intros (_ & _ & Hall).
      apply map_throwing_inr in Hall. congruence.
    + apply map_throwing_inr in Hmap. split.
      * intros [= <-]. by split_and!.
      * intros (_ & Hargv & Hall). destruct p as [a c]; simpl in *. subst a.
        f_equal. apply map_throwing_inr in Hmap, Hall. congruence.
Qed.

(** The faces held are the pieces of each string, converted, in order. *)
Lemma new_faces process_argv p :
  DiceConfigParser.new process_argv = inr p ->
  DiceConfigParser.diceConfig p
  = map (fun str => map Number (split_comma str)) (drop 2 process_argv).
Proof.
  intros (_ & _ & Hall)%new_inr. induction Hall as [|str cfg strs cfgs Hp _ IH]; simpl.
  - done.
  - apply parse_inr in Hp as (-> & _). by rewrite IH.
Qed.

(** What the constructor throws: the count comes first, then the first
    refused string. *)
Lemma new_inl process_argv e :
  DiceConfigParser.new process_argv = inl e ->
  ((length (drop 2 process_argv) < 3)%nat /\ e = too_few_dice)
  \/ exists str, List.In str (drop 2 process_argv) /\ refused str
                 /\ e = invalid_configuration str.
Proof.
  unfold DiceConfigParser.new.
  destruct (length (drop 2 process_argv) <? 3)%nat eqn:Hlen.
  - apply Nat.ltb_lt in Hlen. intros [= <-]. by left.
  - destruct (DiceConfigParser.map_throwing _ _) as [e' | cfg] eqn:Hmap; [| done].
    intros [= <-]. right.
    apply map_throwing_inl in Hmap as (before & str & after & Hl & _ & Hstr).
    apply parse_inl in Hstr as [Href ->].
    exists str. split_and!; [| done | done].
    rewrite Hl. apply in_or_app. right. by left.
Qed.

Lemma new_refuses process_argv :
  (length (drop 2 process_argv) < 3)%nat
  \/ (exists str, List.In str (drop 2 process_argv) /\ refused str) ->
  exists e, DiceConfigParser.new process_argv = inl e.
Proof.
  intros Hbad. destruct (DiceConfigParser.new process_argv) as [e | p] eqn:Hnew; [eauto |].
  exfalso. apply new_inr in Hnew as (Hlen & _ & Hall).
  destruct Hbad as [Hfew | (str & Hin & Href)]; [lia |].
  assert (Hok : exists cfg, DiceConfigParser.parse str = inr cfg).
  { clear Hlen. induction Hall as [|s c ss cs Hs _ IH]; [done |].
    destruct Hin as [<- | Hin]; eauto. }
  destruct Hok as [cfg Hcfg].
  destruct (DiceConfigParser.parse str) as [e | cfg'] eqn:Hp; [done |].
  assert (Hinl : DiceConfigParser.parse str = inl (invalid_configuration str));
    [| congruence].
  by apply parse_inl.
Qed.

(** ** A game that begins *)

Section Grows.
Context `{NodeCrypto}.
Variable I : list event -> Prop.
Hypothesis I_stable : stable I.

Lemma log_keeps e :
  hoare (on_console I) (log e) (fun _ => on_console I) (on_console I).
Proof. apply hoare_log_console. intros. by apply I_stable. Qed.

Lemma start_keeps p :
  hoare (on_console I) (Protocol.start p)
    (fun p' w => I (console w) /\ started p p') (on_console I).
Proof. apply hoare_start; [by intros; apply I_stable | done]. Qed.

Lemma reveal_keeps p :
  hoare (on_console I) (Protocol.reveal p) (fun _ => on_console I) (on_console I).
Proof. apply (hoare_reveal _ I I I I); [by intros; apply I_stable.. | done]. Qed.

Lemma prompt_keeps {A} message (options : list A) diceList :
  hoare (on_console I) (Menu.promptSelection message options diceList)
    (fun i w => I (console w) /\ (i < length options)%nat) (on_console I).
Proof.
  apply (@hoare_prompt_console _ _ _ _ I I I);
    [by intros; apply I_stable.. | by intros ? [|]].
Qed.

Lemma rand_keeps max :
  hoare (on_console I) (RandomGenerator.rand max)
    (fun z w => I (console w) /\ 0 <= z < max) (on_console I).
Proof. by apply hoare_rand. Qed.

Lemma DiceRoller_start_keeps r st diceList :
  hoare (on_console I) (DiceRoller.start r st diceList)
    (fun _ => on_console I) (on_console I).
Proof.
  unfold DiceRoller.start.
  hnext log_keeps. intros ?.
  hnext start_keeps. intros p.
  hnext @prompt_keeps. intros userSelection.
  hnext reveal_keeps. intros ?.
  hnext log_keeps. intros ?.
  eapply hoare_bind.
  { destruct DiceRoller.isUserDice; by apply rollOf_console. }
  intros result.
  hnext log_keeps. intros ?.
  apply hoare_ret. intros w Hw. exact Hw.
Qed.

Lemma result_keeps user computer :
  hoare (on_console I) (DiceRoller.result user computer)
    (fun _ => on_console I) (on_console I).
Proof.
  unfold DiceRoller.result.
  destruct DiceRoller.gt_result; [| destruct DiceRoller.strictEq_result];
    apply log_keeps.
Qed.

End Grows.

Lemma round_opened_stable : stable round_opened.
Proof. intros evs e (tag & rest & ->). by exists tag, (rest ++ [e]). Qed.

Section Begins.
Context `{NodeCrypto}.

(** With a range that the random source accepts, [start] does not fail. *)
Lemma hoare_start_valid p (I I' E : list event -> Prop) :
  0 < Protocol.range p < 2 ^ 48 ->
  (forall evs h, I evs -> I' (evs ++ [OutHmac h])) ->
  hoare (on_console I) (Protocol.start p)
    (fun p' w => I' (console w) /\ started p p') (on_console E).
Proof.
  intros Hrange Hh w Hw.
  pose proof (hoare_start p I I' anything Hh ltac:(done) w Hw) as Hstart.
  by rewrite start_eq in Hstart |- *.
Qed.

(** The first-move round is opened whatever happens next. *)
Lemma DiceSelection_start_opens s st diceList :
  0 < Protocol.range (DiceSelection.protocol s) < 2 ^ 48 ->
  hoare (on_console (eq [])) (DiceSelection.start s st diceList)
    (fun _ => on_console round_opened) (on_console round_opened).
Proof.
  intros Hrange. unfold DiceSelection.start.
  hnext (hoare_log_console _ (eq []) (eq [Out first_move_announcement]) round_opened);
    [by intros ? <- | intros ?].
  hnext (hoare_start_valid _ (eq [Out first_move_announcement]) round_opened round_opened);
    [done | intros ? h <-; by exists h, [] | intros p].
  pose proof round_opened_stable as Hstable.
  hnext (prompt_keeps round_opened Hstable). intros userGuess.
  hnext (reveal_keeps round_opened Hstable). intros ?.
  destruct Protocol.isUserFirst.
  - hnext (prompt_keeps round_opened Hstable). intros index.
    hnext (log_keeps round_opened Hstable). intros ?.
    hnext (rand_keeps round_opened). intros r.
    hnext (log_keeps round_opened Hstable). intros ?.
    apply hoare_ret. intros w Hw. exact Hw.
  - hnext (rand_keeps round_opened). intros index.
    hnext (log_keeps round_opened Hstable). intros ?.
    hnext (prompt_keeps round_opened Hstable). intros i.
    hnext (log_keeps round_opened Hstable). intros ?.
    apply hoare_ret. intros w Hw. exact Hw.
Qed.

(** A command line that the parser accepts opens the first round. *)
Lemma main_opens_round process_argv dice :
  DiceConfigParser.new process_argv = inr dice ->
  hoare (on_console (eq [])) (main process_argv)
    (fun _ => on_console round_opened) (on_console round_opened).
Proof.
  intros Hnew. unfold main. rewrite Hnew.
  destruct DiceConfigParser.getDiceConfig as [st refs].
  pose proof round_opened_stable as Hstable.
  hnext DiceSelection_start_opens; [simpl; lia | intros selection].
  hnext (log_keeps round_opened Hstable). intros ?.
  hnext (DiceRoller_start_keeps round_opened Hstable). intros computerResult.
  hnext (DiceRoller_start_keeps round_opened Hstable). intros userResult.
  apply (result_keeps round_opened Hstable).
Qed.

End Begins.

Lemma Number_blank tok : trim tok = EmptyString -> Number tok = ofZ 0.
Proof. intros Hblank. unfold Number. by rewrite Hblank. Qed.

(** C6.  A face token that is empty or only white space holds no number,
    yet the program does not refuse it: [Number] turns it into 0, which is
    not [NaN].  So when at least three configurations are given and the
    test of the parser refuses none, a configuration with such a token is
    accepted with the face 0 in the place of the token, and the run does not
    fail at the configuration: it prints no error line first, but announces
    the first-move round and publishes its tag. *)
Theorem blank_face_token_is_accepted `{NodeCrypto} (process_argv lines : list string)
    (i j : nat) (str tok : string) :
  (3 <= length (drop 2 process_argv))%nat ->
  (forall s, List.In s (drop 2 process_argv) -> ~ refused s) ->
  drop 2 process_argv !! i = Some str ->
  split_comma str !! j = Some tok ->
  trim tok = EmptyString ->
  isNaN (Number tok) = false
  /\ exists dice,
       DiceConfigParser.new process_argv = inr dice
       /\ DiceConfigParser.getRawDiceConfig dice !! i ≫= (fun faces => faces !! j)
          = Some (ofZ 0)
       /\ round_opened (console (run process_argv lines).2)
       /\ forall msg, console (run process_argv lines).2 <> [ErrLine msg].
Proof.
  intros Hthree Hok Hstr Htok Hblank.
  split; [by rewrite Number_blank |].
  destruct (DiceConfigParser.new process_argv) as [e | dice] eqn:Hnew.
  { apply new_inl in Hnew as [[Hfew _] | (s & Hin & Href & _)]; [lia |].
    by destruct (Hok s Hin). }
  exists dice.
  assert (Hopen : round_opened (console (run process_argv lines).2)).
  { pose proof (main_opens_round process_argv dice Hnew
                  {| drawn := 0; stdin := lines; console := [] |} eq_refl) as Hrun.
    unfold run. by destruct main as [[u| | |] w]. }
  split; [reflexivity |]. split; [| split; [exact Hopen |]].
  - unfold DiceConfigParser.getRawDiceConfig. rewrite (new_faces _ _ Hnew).
    rewrite list_lookup_fmap, Hstr. simpl.
    rewrite list_lookup_fmap, Htok. simpl. by rewrite Number_blank.
  - intros msg Hmsg. destruct Hopen as (tag & rest & Hopen).
    rewrite Hopen in Hmsg. discriminate Hmsg.
Qed.

Lemma blank_face_token_is_accepted_witness :
  let process_argv := ["node"; "diceGame.js"; "1,,2"; "3,4"; "5,6"] in
  exists dice,
    DiceConfigParser.new process_argv = inr dice
    /\ DiceConfigParser.getRawDiceConfig dice !! 0%nat ≫= (fun faces => faces !! 1%nat)
       = Some (ofZ 0)
    /\ round_opened (console (@run (tapeCrypto []) process_argv ["1"]).2).
Proof.
  intros process_argv.
  destruct (@blank_face_token_is_accepted (tapeCrypto []) process_argv ["1"]
              0 1 "1,,2" EmptyString)
    as (_ & dice & Hnew & Hface & Hopen & _).
  - simpl. lia.
  - intros s Hin [Hlen | (tok & Htok & Hnan)];
      simpl in Hin; destruct Hin as [<- | [<- | [<- | []]]];
      try (simpl in Hlen; lia);
      simpl in Htok;
      repeat (destruct Htok as [<- | Htok]; [vm_compute in Hnan; discriminate Hnan |]);
      destruct Htok.
  - reflexivity.
  - reflexivity.
  - reflexivity.
  - exists dice. split; [exact Hnew |]. split; [exact Hface | exact Hopen].
Defined.

(** The program run on [1,,2 3,4 5,6]: the empty piece is the face 0 of
    the first die, and the run waits for the guess with the tag printed. *)
Example empty_face_token_run :
  List.In EmptyString (split_comma "1,,2")
  /\ sum_map id DiceConfigParser.diceConfig
       (DiceConfigParser.new ["node"; "diceGame.js"; "1,,2"; "3,4"; "5,6"])
     = inr [[ofZ 1; ofZ 0; ofZ 2]; [ofZ 3; ofZ 4]; [ofZ 5; ofZ 6]]
  /\ exitStatus (@run (tapeCrypto [])
                   ["node"; "diceGame.js"; "1,,2"; "3,4"; "5,6"] []).1 = None
  /\ exists tag, console (@run (tapeCrypto [])
                   ["node"; "diceGame.js"; "1,,2"; "3,4"; "5,6"] []).2
                 !! 1%nat = Some (OutHmac tag).
Proof.
  split_and!.
  - simpl. tauto.
  - vm_compute. reflexivity.
  - vm_compute. reflexivity.
  - eexists. vm_compute. reflexivity.
Qed.

(** C10.  The parser takes any piece that [Number] converts, integer or not:
    with three configurations [1.5,-2.5] the constructor succeeds and every
    die has the faces 1.5 and -2.5, in this order.  In general the faces of
    the dice built from an accepted command line are the converted pieces of
    each configuration, in their order. *)
Theorem fractional_and_negative_faces_accepted :
  let process_argv := ["node"; "diceGame.js"; "1.5,-2.5"; "1.5,-2.5"; "1.5,-2.5"] in
  let x := div (ofZ 3) (ofZ 2) in
  let y := div (ofZ (-5)) (ofZ 2) in
  (gt x (ofZ 1) = true /\ gt (ofZ 2) x = true
   /\ gt y (ofZ (-3)) = true /\ gt (ofZ (-2)) y = true)
  /\ Number "1.5" = x /\ Number "-2.5" = y
  /\ (exists p, DiceConfigParser.new process_argv = inr p
                /\ DiceConfigParser.getRawDiceConfig p = [[x; y]; [x; y]; [x; y]]
                /\ (DiceConfigParser.getDiceConfig p).1
                   = [Dice.new [x; y]; Dice.new [x; y]; Dice.new [x; y]])
  /\ (forall argv p, DiceConfigParser.new argv = inr p ->
        (3 <= length (drop 2 argv))%nat
        /\ Forall (fun str => (2 <= length (split_comma str))%nat) (drop 2 argv)
        /\ map Dice.values (DiceConfigParser.getDiceConfig p).1
           = map (fun str => map Number (split_comma str)) (drop 2 argv)).
Proof.
  cbv zeta. split_and!; [vm_compute; reflexivity.. | |].
  - eexists. split_and!; vm_compute; reflexivity.
  - intros argv p Hnew. pose proof (new_faces _ _ Hnew) as Hfaces.
    apply new_inr in Hnew as (Hlen & _ & Hall). split_and!; [done | |].
    + clear Hlen Hfaces. induction Hall as [|str cfg strs cfgs Hp _ IH]; constructor; [| done].
      apply parse_inr in Hp as (-> & Hlen & _). by rewrite length_map in Hlen.
    + unfold DiceConfigParser.getDiceConfig. simpl.
      rewrite <- Hfaces, map_map. simpl. apply map_id.
Qed.

(** ** The selection as [main] runs it *)

(** C3 (amended).  In a game of [n] configured dice the set passed to the
    selection holds the [n] dice objects.  When the selection ends the set
    has lost exactly one element, the die assigned first; the die assigned
    second is taken from the rest and is not removed (3 dice become 2 and
    stay 2).  Each party holds one die and the two are different objects. *)
Theorem selection_removes_first_die_only `{NodeCrypto}
    (process_argv lines : list string) (s' : DiceSelection.t) :
  selection_of process_argv lines = Some s' ->
  let n := length (drop 2 process_argv) in
  exists first second : ref,
    (3 <= n)%nat /\ (first < n)%nat /\ (second < n)%nat /\ first <> second
    /\ DiceSelection.dice s' = delete first (seq 0 n)
    /\ length (DiceSelection.dice s') = (n - 1)%nat
    /\ (first ∉ DiceSelection.dice s')
    /\ (second ∈ DiceSelection.dice s')
    /\ DiceSelection.getUserDice s' <> DiceSelection.getComputerDice s'
    /\ ((DiceSelection.getUserDice s' = Some first
         /\ DiceSelection.getComputerDice s' = Some second)
        \/ (DiceSelection.getComputerDice s' = Some first
            /\ DiceSelection.getUserDice s' = Some second)).
Proof.
  intros Hsel n. unfold selection_of in Hsel.
  destruct (DiceConfigParser.new process_argv) as [e | dice] eqn:Hnew; [done |].
  pose proof (new_faces _ _ Hnew) as Hfaces.
  apply new_inr in Hnew as (Hlen & _ & _).
  unfold DiceConfigParser.getDiceConfig in Hsel. rewrite Hfaces, length_map in Hsel.
  fold n in Hsel, Hlen.
  match type of Hsel with
  | context [DiceSelection.start ?s ?st ?raw ?w] =>
      pose proof (DiceSelection_start_assigned s st raw w I) as Hspec;
      destruct (DiceSelection.start s st raw w) as [[sel| | |] w'] eqn:Hrun;
      try done
  end.
  injection Hsel as ->. simpl in Hspec.
  destruct Hspec as (first & second & k & Hk & Hdice & Hin & Hwho).
  assert (Hkn : (k < n)%nat /\ first = k).
  { apply lookup_seq in Hk. simpl in Hk. lia. }
  destruct Hkn as [Hkn ->].
  assert (Hout : k ∉ DiceSelection.dice s').
  { rewrite Hdice. apply NoDup_delete_lookup; [apply NoDup_seq | done]. }
  assert (Hne : k <> second) by (intros ->; done).
  assert (Hsec : (second < n)%nat).
  { rewrite Hdice in Hin.
    apply (elem_of_sublist _ (seq 0 n)) in Hin; [| apply sublist_delete].
    apply elem_of_seq in Hin. lia. }
  exists k, second. split_and!; try done.
  - rewrite Hdice, length_delete; [by rewrite length_seq | eauto].
  - unfold DiceSelection.getUserDice, DiceSelection.getComputerDice.
    destruct Hwho as [[-> ->] | [-> ->]]; congruence.
Qed.

Lemma selection_removes_first_die_only_witness :
  exists s', @selection_of (tapeCrypto demo_tape) demo_argv demo_lines = Some s'
    /\ DiceSelection.dice s' = [1; 2]%nat
    /\ DiceSelection.getUserDice s' = Some 0%nat
    /\ DiceSelection.getComputerDice s' = Some 1%nat.
Proof.
  eexists. split; [vm_compute; reflexivity |].
  destruct (@selection_removes_first_die_only (tapeCrypto demo_tape)
              demo_argv demo_lines _ ltac:(vm_compute; reflexivity))
    as (first & second & _).
  split_and!; reflexivity.
Defined.

(** C3 as stated fails: after both assignments of a game of three dice the
    set still holds two dice, not one; and with a configuration that repeats
    a die the two parties hold dice with the same faces. *)
Lemma dice_set_keeps_two_of_three :
  (exists s', @selection_of (tapeCrypto demo_tape) demo_argv demo_lines = Some s'
     /\ length (DiceSelection.dice s') = 2%nat
     /\ is_Some (DiceSelection.getUserDice s')
     /\ is_Some (DiceSelection.getComputerDice s'))
  /\ (let repeated := ["node"; "diceGame.js"; "1,2,3"; "1,2,3"; "1,2,3"] in
      exists s', @selection_of (tapeCrypto demo_tape) repeated demo_lines = Some s'
        /\ shown (dice_store_of repeated) (DiceSelection.getUserDice s')
           = Some [ofZ 1; ofZ 2; ofZ 3]
        /\ shown (dice_store_of repeated) (DiceSelection.getComputerDice s')
           = Some [ofZ 1; ofZ 2; ofZ 3]).
Proof.
  split.
  - eexists. split; [vm_compute; reflexivity |]. split_and!; [reflexivity | by eexists..].
  - eexists. split; [vm_compute; reflexivity |]. split; vm_compute; reflexivity.
Qed.

(** ** The win probability *)

Lemma wins_of_face x (dieB : list number) :
  length (List.filter (fun b : bool => b) (map (fun y => gt x y) dieB))
  = length (List.filter (fun p : number * number => gt p.1 p.2) (map (pair x) dieB)).
Proof.
  induction dieB as [|y r IH]; simpl; [done |].
  destruct (gt x y); simpl; by rewrite IH.
Qed.

Lemma wins_count (dieA dieB : list number) :
  length (List.filter (fun b : bool => b)
            (flat_map (fun x => map (fun y => gt x y) dieB) dieA))
  = length (winning_pairs dieA dieB).
Proof.
  unfold winning_pairs. induction dieA as [|x r IH]; simpl; [done |].
  rewrite !List.filter_app, !length_app, IH, wins_of_face. done.
Qed.

(** Equal numbers compare equal from both sides. *)
Lemma SFcompare_Eq_sym (x y : number) :
  SFcompare x y = Some Eq -> SFcompare y x = Some Eq.
Proof.
  destruct x as [sx | sx | | sx mx ex], y as [sy | sy | | sy my ey]; simpl;
    try done; try (by destruct sx); try (by destruct sy);
    try (by destruct sx, sy).
  destruct sx, sy; try done.
  - destruct (Z.compare_spec ex ey) as [-> | |]; [| done | done].
    rewrite Z.compare_refl. intros [= Hm].
    apply (f_equal CompOpp) in Hm. rewrite CompOpp_involutive in Hm. simpl in Hm.
    apply Pos.compare_eq in Hm as ->. by rewrite Pos.compare_cont_refl.
  - destruct (Z.compare_spec ex ey) as [-> | |]; [| done | done].
    rewrite Z.compare_refl. intros [= Hm].
    apply Pos.compare_eq in Hm as ->. by rewrite Pos.compare_cont_refl.
Qed.

Lemma gt_not_strictEq (x y : number) : gt x y = true -> strictEq x y = false.
Proof.
  unfold gt, strictEq, SFltb, SFeqb. intros Hgt.
  destruct (SFcompare x y) as [[| |]|] eqn:Hxy; try done.
  apply SFcompare_Eq_sym in Hxy. by rewrite Hxy in Hgt.
Qed.

(** C4.  [computeWinProbability] is the quotient the spec describes: the
    number of ordered pairs of faces with [faceA > faceB], divided by the
    number of all pairs, which is the product of the two numbers of faces.
    A pair of equal faces is never counted as a win, but it is one of the
    pairs of the denominator.  For the dice 2,2,4,4,9,9 and 1,1,6,6,8,8 there
    are 20 winning pairs among 36 and the result is the number 5/9. *)
Theorem computeWinProbability_counts_winning_pairs (dieA dieB : list number) :
  ProbabilityCalculator.computeWinProbability dieA dieB = winProbability_spec dieA dieB
  /\ length (list_prod dieA dieB) = (length dieA * length dieB)%nat
  /\ (forall a b, List.In (a, b) (winning_pairs dieA dieB) ->
        List.In a dieA /\ List.In b dieB /\ gt a b = true /\ strictEq a b = false)
  /\ (forall a b, List.In a dieA -> List.In b dieB -> gt a b = true ->
        List.In (a, b) (winning_pairs dieA dieB))
  /\ length (winning_pairs (map ofZ [2; 2; 4; 4; 9; 9]) (map ofZ [1; 1; 6; 6; 8; 8]))
     = 20%nat
  /\ ProbabilityCalculator.computeWinProbability
       (map ofZ [2; 2; 4; 4; 9; 9]) (map ofZ [1; 1; 6; 6; 8; 8])
     = div (ofZ 5) (ofZ 9).
Proof.
  split_and!.
  - unfold ProbabilityCalculator.computeWinProbability, winProbability_spec.
    by rewrite wins_count.
  - apply length_prod.
  - intros a b Hin. unfold winning_pairs in Hin.
    apply filter_In in Hin as [Hin Hgt]. apply in_prod_iff in Hin as [Ha Hb].
    simpl in Hgt. split_and!; try done. by apply gt_not_strictEq.
  - intros a b Ha Hb Hgt. unfold winning_pairs.
    apply filter_In. split; [by apply in_prod_iff | done].
  - vm_compute. reflexivity.
  - vm_compute. reflexivity.
Qed.

(** ** The fair number *)

Lemma below_6_cases (u : nat) :
  (u < 6)%nat -> u = 0%nat \/ u = 1%nat \/ u = 2%nat \/ u = 3%nat \/ u = 4%nat \/ u = 5%nat.
Proof. lia. Qed.

Lemma Z_below_6_cases (s : Z) :
  0 <= s < 6 -> s = 0 \/ s = 1 \/ s = 2 \/ s = 3 \/ s = 4 \/ s = 5.
Proof. lia. Qed.

Ltac each_below_6 H :=
  first [ apply below_6_cases in H | apply Z_below_6_cases in H ];
  destruct H as [-> | [-> | [-> | [-> | [-> | ->]]]]].

(** C5.  For a computer number in 0..5 the fair number of every user number
    in 0..5 is in 0..5, and as the user number runs over 0..5 the fair number
    takes each value of 0..5 exactly once. *)
Theorem fairNumber_bijection (s : Z) :
  0 <= s < 6 ->
  (forall u, (u < 6)%nat -> 0 <= DiceRoller.fairNumber (Some s) u < 6)
  /\ (forall u1 u2, (u1 < 6)%nat -> (u2 < 6)%nat ->
        DiceRoller.fairNumber (Some s) u1 = DiceRoller.fairNumber (Some s) u2 -> u1 = u2)
  /\ (forall r, 0 <= r < 6 ->
        exists u, (u < 6)%nat /\ DiceRoller.fairNumber (Some s) u = r)
  /\ map (DiceRoller.fairNumber (Some s)) (seq 0 6) ≡ₚ [0; 1; 2; 3; 4; 5].
Proof.
  intros Hs. split_and!.
  - intros u Hu. unfold DiceRoller.fairNumber. simpl.
    pose proof (Z.rem_bound_pos (s + Z.of_nat u) 6). lia.
  - intros u1 u2 Hu1 Hu2. each_below_6 Hs; each_below_6 Hu1; each_below_6 Hu2;
      vm_compute; congruence.
  - intros r Hr.
    assert (Hex : forall u, ((u <? 6)%nat && (DiceRoller.fairNumber (Some s) u =? r)) = true ->
                  exists u, (u < 6)%nat /\ DiceRoller.fairNumber (Some s) u = r).
    { intros u [Hu Hr']%andb_prop. exists u.
      split; [by apply Nat.ltb_lt | by apply Z.eqb_eq]. }
    each_below_6 Hs; each_below_6 Hr;
      first [ by apply (Hex 0%nat) | by apply (Hex 1%nat) | by apply (Hex 2%nat)
            | by apply (Hex 3%nat) | by apply (Hex 4%nat) | by apply (Hex 5%nat) ].
  - each_below_6 Hs; vm_compute.
    + done.
    + by apply (Permutation_app_comm [1; 2; 3; 4; 5] [0]).
    + by apply (Permutation_app_comm [2; 3; 4; 5] [0; 1]).
    + by apply (Permutation_app_comm [3; 4; 5] [0; 1; 2]).
    + by apply (Permutation_app_comm [4; 5] [0; 1; 2; 3]).
    + by apply (Permutation_app_comm [5] [0; 1; 2; 3; 4]).
Qed.

Lemma fairNumber_bijection_witness :
  map (DiceRoller.fairNumber (Some 3)) (seq 0 6) ≡ₚ [0; 1; 2; 3; 4; 5].
Proof. apply (fairNumber_bijection 3). lia. Defined.

(** ** Commitment and verification *)

(** C7.  A tag computed by [calcHmac] for a number and a key verifies for
    the same number and key.  The tag is the HMAC, under the key, of the one
    byte that holds the number modulo 256.  In the program: after [start],
    the number and the key that [reveal] will print verify against the tag
    kept in the round object, which is the tag just printed in upper case. *)
Theorem verify_accepts_commit `{NodeCrypto} (secretNumber : Z) (key : list Byte.byte)
    (w : world) :
  HmacCalculator.calcHmac (Some secretNumber) (Some key) w
  = (Returned (hmac_sha3_256_hex key [byte_of_N (Z.to_N (secretNumber mod 256))]), w)
  /\ (tag ← HmacCalculator.calcHmac (Some secretNumber) (Some key);
      verify secretNumber key tag) w = (Returned true, w)
  /\ (forall p p1 w1, Protocol.start p w = (Returned p1, w1) ->
        exists n k tag,
          Protocol.computerNum p1 = Some n /\ Protocol.key p1 = Some k
          /\ Protocol.hmac p1 = Some tag
          /\ verify n k tag w1 = (Returned true, w1)
          /\ last (console w1) = Some (OutHmac (toUpperCase tag))).
Proof.
  split_and!; [reflexivity | |].
  - unfold verify, HmacCalculator.calcHmac, mbind, M_bind, mret, M_ret.
    by rewrite String.eqb_refl.
  - intros p p1 w1.
    unfold Protocol.start, Protocol.generateKey, Protocol.generateRandomIndex,
      Protocol.computeHmac, RandomGenerator.key, RandomGenerator.rand,
      HmacCalculator.calcHmac, HmacCalculator.printHmac.
    unfold mbind, M_bind, mret, M_ret, randomBytes, randomInt.
    cbn [Protocol.range Protocol.key Protocol.computerNum Protocol.hmac
         Protocol.userFirst drawn stdin console].
    destruct (isSafeInteger (Protocol.range p)); cbn [negb]; [| done].
    destruct ((0 <? Protocol.range p) && (Protocol.range p <? 2 ^ 48)); [| done].
    unfold log. intros [= <- <-].
    do 3 eexists. cbn [Protocol.key Protocol.computerNum Protocol.hmac console].
    split_and!; [reflexivity.. | | by rewrite last_snoc].
    unfold verify, HmacCalculator.calcHmac, mbind, M_bind, mret, M_ret.
    by rewrite String.eqb_refl.
Qed.

Lemma verify_accepts_commit_witness :
  exists n k tag,
    @verify (tapeCrypto demo_tape) n k tag idle_world = (Returned true, idle_world)
    /\ (@Protocol.start (tapeCrypto demo_tape) (Protocol.new 2) idle_world).1
       = Returned {| Protocol.range := 2; Protocol.key := Some k;
                     Protocol.computerNum := Some n; Protocol.hmac := Some tag;
                     Protocol.userFirst := false |}.
Proof.
  exists 1, (repeat Byte.x07 32), "1k32".
  split; [| vm_compute; reflexivity].
  destruct (@verify_accepts_commit (tapeCrypto demo_tape) 1 (repeat Byte.x07 32) idle_world)
    as (_ & Hverify & _).
  exact Hverify.
Defined.

(** ** Rolling past the last face *)

(** The value of a roll round, from what its steps return. *)
Lemma DiceRoller_start_returns `{NodeCrypto} r st diceList w p w1 u w2 die :
  Protocol.start (DiceRoller.protocol r) (emit [roll_intro (DiceRoller.whose r)] w)
  = (Returned p, w1) ->
  Menu.promptSelection "Add your number modulo 6." [0; 1; 2; 3; 4; 5] diceList w1
  = (Returned u, w2) ->
  is_Some (Protocol.key p) ->
  (if DiceRoller.isUserDice (DiceRoller.whose r)
   then DiceRoller.userDice r else DiceRoller.computerDice r) ≫= (fun a => st !! a)
  = Some die ->
  (DiceRoller.start r st diceList w).1
  = Returned (Dice.roll die (DiceRoller.fairNumber (Protocol.computerNumber p) u)).
Proof.
  intros Hstart Hprompt [k Hk] Hdie.
  unfold DiceRoller.start, mbind, M_bind.
  change (log ?e w) with (Returned tt, emit [e] w). cbv beta iota.
  fold (roll_intro (DiceRoller.whose r)). rewrite Hstart, Hprompt.
  unfold Protocol.reveal, RandomGenerator.printKey, mbind, M_bind. rewrite Hk.
  unfold DiceRoller.rollOf.
  destruct (DiceRoller.isUserDice (DiceRoller.whose r)); rewrite Hdie; reflexivity.
Qed.

(** C9.  [roll] is a plain positional lookup: it gives a face exactly for
    the indices from 0 to the number of faces minus one.  The roll rounds
    reach every index from 0 to 5, so a die that the parser accepts with
    fewer than six faces can be rolled past its last face: a roll round for
    it, with the computer number 0 and the user adding 5, yields no value. *)
Theorem roll_past_last_face (d : Dice.t) (st : store) (a : ref) (other : option ref)
    (diceList : list (list number)) :
  (2 <= Dice.numberOfFaces d < 6)%nat ->
  st !! a = Some d ->
  (forall index, is_Some (Dice.roll d index)
                 <-> 0 <= index < Z.of_nat (Dice.numberOfFaces d))
  /\ (forall r, 0 <= r < 6 ->
        exists c u, 0 <= c < 5 /\ (u < 6)%nat /\ DiceRoller.fairNumber (Some c) u = r)
  /\ (exists c u, 0 <= c < 5 /\ (u < 6)%nat
                  /\ Dice.roll d (DiceRoller.fairNumber (Some c) u) = None)
  /\ (@DiceRoller.start (tapeCrypto [])
        (DiceRoller.new "Your" (Protocol.new 5) (Some a) other) st diceList
        {| drawn := 0; stdin := ["5"]; console := [] |}).1 = Returned None.
Proof.
  intros [Hlo Hhi] Hst.
  assert (Hroll5 : Dice.roll d 5 = None).
  { unfold Dice.roll. simpl. apply lookup_ge_None_2. unfold Dice.numberOfFaces in Hhi. lia. }
  split_and!.
  - intros index. unfold Dice.roll, Dice.numberOfFaces.
    destruct (Z.ltb_spec index 0) as [Hneg | Hpos].
    + split; [by intros [? ?] | lia].
    + rewrite lookup_lt_is_Some. lia.
  - intros r Hr. exists 0, (Z.to_nat r). split; [lia |]. split; [lia |].
    unfold DiceRoller.fairNumber. simpl. rewrite Z2Nat.id by lia.
    apply Z.rem_small. lia.
  - exists 0, 5%nat. split; [lia |]. split; [lia | exact Hroll5].
  - erewrite (@DiceRoller_start_returns (tapeCrypto []));
      [ | vm_compute; reflexivity | vm_compute; reflexivity
        | vm_compute; eauto | simpl; exact Hst ].
    change (DiceRoller.fairNumber _ _) with 5. by rewrite Hroll5.
Qed.

Lemma roll_past_last_face_witness :
  (@DiceRoller.start (tapeCrypto [])
     (DiceRoller.new "Your" (Protocol.new 5) (Some 0%nat) (Some 1%nat))
     [Dice.new [ofZ 7; ofZ 5; ofZ 3]; Dice.new [ofZ 1; ofZ 2]] []
     {| drawn := 0; stdin := ["5"]; console := [] |}).1 = Returned None.
Proof.
  apply (roll_past_last_face (Dice.new [ofZ 7; ofZ 5; ofZ 3])).
  - unfold Dice.numberOfFaces. simpl. lia.
  - reflexivity.
Defined.

(** A whole game with a die of three faces: the computer goes first and
    takes it, the fair number of its roll is 5, and the roll has no value;
    the program then announces that the computer wins. *)
Example short_die_game :
  let w := (@run (tapeCrypto demo_tape)
              ["node"; "diceGame.js"; "2,2,4,4,9,9"; "6,8,1,1,8,6"; "7,5,3"]
              ["0"; "1"; "1"; "3"]).2 in
  OutFair (Some 4) 1 (Some 5) ∈ console w
  /\ OutRoll "My" None ∈ console w
  /\ last (console w) = Some (OutLose (Some (ofZ 6)) None).
Proof.
  cbv zeta. split_and!.
  - apply list_elem_of_In. vm_compute. tauto.
  - apply list_elem_of_In. vm_compute. tauto.
  - vm_compute. reflexivity.
Qed.

(** * Further properties *)

(** ** Index texts *)

Lemma digit_text_trimStart d :
  trimStart (NilEmpty.string_of_uint d) = NilEmpty.string_of_uint d.
Proof. by destruct d. Qed.

Lemma digit_text_trimEnd d :
  trimEnd (NilEmpty.string_of_uint d) = NilEmpty.string_of_uint d.
Proof.
  induction d as [|d IH|d IH|d IH|d IH|d IH|d IH|d IH|d IH|d IH|d IH]; simpl;
    [done | rewrite IH; by destruct d ..].
Qed.

Lemma digit_text_trim d : trim (NilEmpty.string_of_uint d) = NilEmpty.string_of_uint d.
Proof. unfold trim. by rewrite digit_text_trimStart, digit_text_trimEnd. Qed.

Lemma digit_text_not_command d :
  String.eqb (NilEmpty.string_of_uint d) "?" = false
  /\ String.eqb (NilEmpty.string_of_uint d) "X" = false
  /\ String.eqb (NilEmpty.string_of_uint d) "Infinity" = false.
Proof. by destruct d. Qed.

(** Reading the digits of a decimal numeral continues the accumulator the
    way [Nat.of_uint_acc] does. *)
Lemma span_digits_text d acc n :
  span_digits 10 (NilEmpty.string_of_uint d) (Z.of_nat acc) n
  = (Z.of_nat (Nat.of_uint_acc d acc), (n + Decimal.nb_digits d)%nat, EmptyString).
Proof.
  revert acc n.
  induction d as [|d IH|d IH|d IH|d IH|d IH|d IH|d IH|d IH|d IH|d IH]; intros acc n;
    cbn [NilEmpty.string_of_uint span_digits Nat.of_uint_acc Decimal.nb_digits].
  1: by rewrite Nat.add_0_r.
  all: match goal with
       | |- context [digit_of 10 ?c] =>
           let v := eval vm_compute in (digit_of 10 c) in
           change (digit_of 10 c) with v; cbv iota
       end.
  all: match goal with
       | |- span_digits 10 _ ?z _ = (Z.of_nat (Nat.of_uint_acc _ ?a), _, _) =>
           replace z with (Z.of_nat a) by (rewrite Nat.tail_mul_spec; lia)
       end.
  all: rewrite IH; do 2 f_equal; lia.
Qed.

Lemma ofZ_pos p : ofZ (Zpos p) = binary_round prec emax false p 0.
Proof. reflexivity. Qed.

Lemma Number_digit_text d :
  Number (NilEmpty.string_of_uint d) = ofZ (Z.of_nat (Nat.of_uint d)).
Proof.
  unfold Number. rewrite digit_text_trim.
  destruct (NilEmpty.string_of_uint d) as [|c r] eqn:Htext.
  { destruct d; try discriminate Htext. reflexivity. }
  rewrite <- Htext.
  assert (Hlit : parse_literal (NilEmpty.string_of_uint d)
                 = parse_unsigned_decimal false (NilEmpty.string_of_uint d)).
  { clear. destruct d as [|d|d|d|d|d|d|d|d|d|d]; try reflexivity. by destruct d. }
  rewrite Hlit. unfold parse_unsigned_decimal.
  destruct (digit_text_not_command d) as (_ & _ & ->).
  change 0 with (Z.of_nat 0) at 1. rewrite span_digits_text.
  fold (Nat.of_uint d).
  assert (Hdigits : exists k, (0 + Decimal.nb_digits d + 0)%nat = S k).
  { destruct d; try discriminate Htext; simpl; eauto. }
  destruct Hdigits as [k ->].
  cbn [parse_exponent]. unfold ofDecimal.
  destruct (Z.of_nat (Nat.of_uint d)) as [|p|p] eqn:Hval; [reflexivity | | lia].
  change (0 - Z.of_nat 0) with 0. change (0 <=? 0) with true. cbv iota.
  change (Z.to_pos (10 ^ 0)) with 1%positive. by rewrite Pos.mul_1_r.
Qed.

(** X1.  The text of an array index converts back to the index: [Number]
    of [index.toString()] is the number [index], and the reading of the menu
    answer agrees with it. *)
Theorem Number_of_index_text (i : nat) :
  Number (ofIndex i) = ofZ (Z.of_nat i)
  /\ NumberOfIndex (ofIndex i) = i
  /\ ofZ (Z.of_nat (NumberOfIndex (ofIndex i))) = Number (ofIndex i)
  /\ trim (ofIndex i) = ofIndex i.
Proof.
  unfold ofIndex. rewrite Number_digit_text, DecimalNat.Unsigned.of_to.
  fold (ofIndex i). rewrite NumberOfIndex_ofIndex.
  split_and!; try done. apply digit_text_trim.
Qed.

(** ** The menu as its callers see it *)

Lemma includes_index n i : (i < n)%nat -> includes (ofIndex i) (menu_options n) = true.
Proof.
  intros Hi. unfold includes, menu_options. apply existsb_exists.
  exists (ofIndex i). split; [| apply String.eqb_refl].
  apply in_or_app. left. apply in_map, in_seq. lia.
Qed.

(** An accepted answer is [X], [?] or the text of an index of the menu. *)
Lemma menu_answer_cases n answer :
  includes answer (menu_options n) = true ->
  answer = "X" \/ answer = "?" \/ exists i, (i < n)%nat /\ answer = ofIndex i.
Proof.
  unfold includes, menu_options. intros Hin.
  apply existsb_exists in Hin as (opt & Hopt & Heq).
  apply String.eqb_eq in Heq. subst opt.
  apply in_app_or in Hopt as [Hopt | Hopt].
  - apply in_map_iff in Hopt as (i & <- & Hi). apply in_seq in Hi.
    right. right. exists i. split; [lia | done].
  - simpl in Hopt. destruct Hopt as [<- | [<- | []]]; auto.
Qed.

(** The loop of [readInput] on the lines still to be read. *)
Lemma readInput_loop_contract prompt n diceList lines w :
  stdin w = lines ->
  let r := Menu.readInput_loop prompt (menu_options n) diceList lines w in
  drawn r.2 = drawn w
  /\ (exists chat, console r.2 = console w ++ chat)
  /\ match r.1 with
     | Returned i =>
         (i < n)%nat
         /\ exists used line, lines = used ++ line :: stdin r.2 /\ trim line = ofIndex i
     | Thrown _ => False
     | Exited c =>
         c = 1 /\ exists used line, lines = used ++ line :: stdin r.2 /\ trim line = "X"
     | Waiting => stdin r.2 = []
     end.
Proof.
  revert w. induction lines as [|line rest IH]; intros w Hin; cbv zeta.
  - simpl. split_and!; [done | by exists []; rewrite app_nil_r | done].
  - cbn [Menu.readInput_loop].
    set (w1 := {| drawn := drawn w; stdin := rest;
                  console := console w ++ [Question prompt line] |}).
    assert (Hloop : forall e,
               let r := Menu.readInput_loop prompt (menu_options n) diceList rest
                          (emit [e] w1) in
               drawn r.2 = drawn w
               /\ (exists chat, console r.2 = console w ++ chat)
               /\ match r.1 with
                  | Returned i =>
                      (i < n)%nat
                      /\ exists used l, line :: rest = used ++ l :: stdin r.2
                                        /\ trim l = ofIndex i
                  | Thrown _ => False
                  | Exited c =>
                      c = 1 /\ exists used l, line :: rest = used ++ l :: stdin r.2
                                              /\ trim l = "X"
                  | Waiting => stdin r.2 = []
                  end).
    { intros e. specialize (IH (emit [e] w1) eq_refl). cbv zeta in IH |- *.
      destruct IH as (Hd & (chat & Hc) & Hout). split_and!.
      - by rewrite Hd.
      - exists ([Question prompt line; e] ++ chat). rewrite Hc. simpl.
        by rewrite <- !app_assoc.
      - destruct (Menu.readInput_loop _ _ _ _ _).1 as [i| |c|]; try done.
        + destruct Hout as (Hi & used & l & Hl & Htrim). split; [done |].
          exists (line :: used), l. split; [by rewrite Hl at 1 | done].
        + destruct Hout as (Hc1 & used & l & Hl & Htrim). split; [done |].
          exists (line :: used), l. split; [by rewrite Hl at 1 | done]. }
    destruct (includes (trim line) (menu_options n)) eqn:Hinc; simpl negb; cbv iota.
    + destruct (String.eqb (trim line) "?") eqn:Hq; [apply Hloop |].
      destruct (String.eqb (trim line) "X") eqn:Hx.
      * simpl. split_and!; [done | by eexists | done |].
        exists [], line. split; [done | by apply String.eqb_eq].
      * simpl. split_and!; [done | by eexists | by apply menu_answer_index |].
        exists [], line. split; [done |].
        destruct (menu_answer_cases _ _ Hinc) as [Ha | [Ha | (i & _ & Ha)]];
          rewrite Ha in *; try done.
        by rewrite NumberOfIndex_ofIndex.
    + apply Hloop.
Qed.

(** X2.  [promptSelection] never throws.  It returns only an index of the
    menu, and then the last line it read, trimmed, is the text of that index;
    it leaves the process only with status 1 and only on the answer [X]; it
    waits only when no line is left.  It draws nothing from the random source
    and only adds to the console, first the menu. *)
Theorem promptSelection_contract {A} (message : string) (options : list A)
    (diceList : list (list number)) (w : world) :
  let r := Menu.promptSelection message options diceList w in
  drawn r.2 = drawn w
  /\ (exists chat,
        console r.2 = console w ++ menu_lines message (length options) ++ chat)
  /\ match r.1 with
     | Returned i =>
         (i < length options)%nat
         /\ exists used line, stdin w = used ++ line :: stdin r.2 /\ trim line = ofIndex i
     | Thrown _ => False
     | Exited c =>
         c = 1 /\ exists used line, stdin w = used ++ line :: stdin r.2 /\ trim line = "X"
     | Waiting => stdin r.2 = []
     end.
Proof.
  cbv zeta. rewrite promptSelection_eq. unfold Menu.readInput.
  pose proof (readInput_loop_contract "Your selection: " (length options) diceList
                (stdin (emit (menu_lines message (length options)) w))
                (emit (menu_lines message (length options)) w) eq_refl) as Hloop.
  cbv zeta in Hloop. destruct Hloop as (Hd & (chat & Hc) & Hout).
  split_and!; [done | | done].
  exists chat. rewrite Hc. simpl. by rewrite <- app_assoc.
Qed.

(** X3.  Typing the text of an index of the menu, with or without white
    space around it, selects that index: the menu returns it after reading
    that one line. *)
Theorem typed_index_is_selected {A} (message : string) (options : list A)
    (diceList : list (list number)) (w : world) (line : string) (rest : list string)
    (i : nat) :
  (i < length options)%nat ->
  trim line = ofIndex i ->
  stdin w = line :: rest ->
  Menu.promptSelection message options diceList w
  = (Returned i,
     {| drawn := drawn w; stdin := rest;
        console := console w ++ menu_lines message (length options)
                   ++ [Question "Your selection: " line] |}).
Proof.
  intros Hi Htrim Hin. rewrite promptSelection_eq. unfold Menu.readInput.
  cbn [stdin emit]. rewrite Hin. cbn [Menu.readInput_loop]. rewrite Htrim.
  rewrite (includes_index _ _ Hi). simpl negb. cbv iota.
  unfold ofIndex at 1 2.
  destruct (digit_text_not_command (Nat.to_uint i)) as (-> & -> & _).
  fold (ofIndex i). rewrite NumberOfIndex_ofIndex.
  cbn [drawn console emit]. by rewrite <- app_assoc.
Qed.

Lemma typed_index_is_selected_witness :
  (Menu.promptSelection "Add your number modulo 6." [0; 1; 2; 3; 4; 5] []
     {| drawn := 0; stdin := [" 4 "; "X"]; console := [] |}).1 = Returned 4%nat.
Proof.
  rewrite (typed_index_is_selected _ _ _ _ " 4 " ["X"] 4%nat); [done | simpl; lia | done..].
Defined.

(** The loop of [readInput] looks at the lines only: what it returns, what
    it leaves to read and what it draws do not depend on the console. *)
Lemma readInput_loop_ignores_console prompt options diceList lines w1 w2 :
  drawn w1 = drawn w2 -> stdin w1 = stdin w2 ->
  let r1 := Menu.readInput_loop prompt options diceList lines w1 in
  let r2 := Menu.readInput_loop prompt options diceList lines w2 in
  r1.1 = r2.1 /\ stdin r1.2 = stdin r2.2 /\ drawn r1.2 = drawn r2.2.
Proof.
  revert w1 w2. induction lines as [|line rest IH]; intros w1 w2 Hd Hs; cbv zeta.
  - done.
  - cbn [Menu.readInput_loop].
    destruct (negb (includes (trim line) options)); [by apply IH |].
    destruct (String.eqb (trim line) "?"); [by apply IH |].
    by destruct (String.eqb (trim line) "X").
Qed.

Lemma readInput_loop_passes_over prompt options diceList noise rest :
  Forall (passed_over options) noise ->
  forall w1 w2, drawn w1 = drawn w2 -> stdin w1 = noise ++ rest -> stdin w2 = rest ->
  let r1 := Menu.readInput_loop prompt options diceList (noise ++ rest) w1 in
  let r2 := Menu.readInput_loop prompt options diceList rest w2 in
  r1.1 = r2.1 /\ stdin r1.2 = stdin r2.2 /\ drawn r1.2 = drawn r2.2.
Proof.
  induction 1 as [|line noise Hline _ IH]; intros w1 w2 Hd Hs1 Hs2.
  - apply readInput_loop_ignores_console; [done | by rewrite Hs1, Hs2].
  - cbv zeta. cbn [app Menu.readInput_loop].
    destruct Hline as [Hout | Hhelp].
    + rewrite Hout. simpl negb. cbv iota. by apply IH.
    + destruct (includes (trim line) options); simpl negb; cbv iota; [| by apply IH].
      rewrite Hhelp. simpl String.eqb. cbv iota. by apply IH.
Qed.

(** X4.  Lines that are no option of the menu, and requests for help, do not
    change the selection: with such lines typed first, [readInput] returns
    the same value, leaves the same lines unread and draws the same as
    without them; only the console shows them. *)
Theorem passed_over_lines_change_nothing (prompt : string) (options : list string)
    (diceList : list (list number)) (noise rest : list string)
    (d : nat) (printed : list event) :
  Forall (passed_over options) noise ->
  let r1 := Menu.readInput prompt options diceList
              {| drawn := d; stdin := noise ++ rest; console := printed |} in
  let r2 := Menu.readInput prompt options diceList
              {| drawn := d; stdin := rest; console := printed |} in
  r1.1 = r2.1 /\ stdin r1.2 = stdin r2.2 /\ drawn r1.2 = drawn r2.2.
Proof.
  intros Hnoise. unfold Menu.readInput. cbn [stdin].
  by apply readInput_loop_passes_over.
Qed.

Lemma passed_over_lines_change_nothing_witness :
  (Menu.readInput "Your selection: " (menu_options 2) []
     {| drawn := 0; stdin := ["7"; "?"; "yes"] ++ ["1"; "0"]; console := [] |}).1
  = (Menu.readInput "Your selection: " (menu_options 2) []
       {| drawn := 0; stdin := ["1"; "0"]; console := [] |}).1.
Proof.
  apply (passed_over_lines_change_nothing "Your selection: " (menu_options 2) []
           ["7"; "?"; "yes"] ["1"; "0"] 0 []).
  repeat constructor; by right.
Defined.

(** ** The commitment *)

Lemma byte_of_N_inj (n m : N) :
  (n < 256)%N -> (m < 256)%N -> byte_of_N n = byte_of_N m -> n = m.
Proof.
  unfold byte_of_N. intros Hn Hm Heq.
  apply (f_equal ascii_of_byte) in Heq. rewrite !ascii_of_byte_of_ascii in Heq.
  apply (f_equal N_of_ascii) in Heq. by rewrite !N_ascii_embedding in Heq.
Qed.

(** X5.  The tag commits to one byte, the number modulo 256: numbers that
    differ by a multiple of 256 get the same tag under the same key, and a
    missing number counts as 0, while two different numbers from 0 to 255 are
    encoded differently.  Without a key no tag is computed: a TypeError. *)
Theorem calcHmac_commits_to_one_byte `{NodeCrypto} (n m : Z) (key : list Byte.byte)
    (w : world) :
  (n mod 256 = m mod 256 ->
     HmacCalculator.calcHmac (Some n) (Some key) w
     = HmacCalculator.calcHmac (Some m) (Some key) w)
  /\ HmacCalculator.calcHmac (Some (n + 256)) (Some key) w
     = HmacCalculator.calcHmac (Some n) (Some key) w
  /\ HmacCalculator.calcHmac None (Some key) w
     = HmacCalculator.calcHmac (Some 0) (Some key) w
  /\ (0 <= n < 256 -> 0 <= m < 256 ->
        HmacCalculator.bufferFrom (Some n) = HmacCalculator.bufferFrom (Some m) -> n = m)
  /\ fails_with "TypeError" (HmacCalculator.calcHmac (Some n) None w).
Proof.
  unfold HmacCalculator.calcHmac, HmacCalculator.bufferFrom. simpl default.
  split_and!.
  - by intros ->.
  - replace ((n + 256) mod 256) with (n mod 256); [done |].
    by rewrite <- (Z.mod_add n 1 256) by lia.
  - done.
  - intros Hn Hm [= Hbyte]. rewrite !Z.mod_small in Hbyte by lia.
    apply byte_of_N_inj in Hbyte; lia.
  - eexists. by split.
Qed.

(** The two errors of the random source: a range that is no safe integer,
    and ranges that are safe integers but not from 1 to 2^48 - 1. *)
Example start_refused_ranges :
  fails_with "TypeError" (@Protocol.start (tapeCrypto []) (Protocol.new (2 ^ 53)) idle_world)
  /\ fails_with "TypeError" (@Protocol.start (tapeCrypto []) (Protocol.new (- 2 ^ 53)) idle_world)
  /\ fails_with "RangeError" (@Protocol.start (tapeCrypto []) (Protocol.new (2 ^ 53 - 1)) idle_world)
  /\ fails_with "RangeError" (@Protocol.start (tapeCrypto []) (Protocol.new (2 ^ 48)) idle_world)
  /\ fails_with "RangeError" (@Protocol.start (tapeCrypto []) (Protocol.new 0) idle_world)
  /\ fails_with "RangeError" (@Protocol.start (tapeCrypto []) (Protocol.new (-1)) idle_world).
Proof. split_and!; eexists; split; vm_compute; reflexivity. Qed.

(** X6.  [start] succeeds exactly on a range from 1 to 2^48 - 1.  Then it
    has drawn the 32 bytes of the key and one number.  Otherwise it throws
    an error of the random source, after the key was drawn and before
    anything is printed: a RangeError for a range that is a safe integer, a
    TypeError for one that is not. *)
Theorem start_succeeds_iff_range_valid `{NodeCrypto} (p : Protocol.t) (w : world) :
  match Protocol.start p w with
  | (Returned p', w') =>
      0 < Protocol.range p < 2 ^ 48
      /\ drawn w' = (drawn w + 33)%nat /\ stdin w' = stdin w
  | (Thrown e, w') =>
      ~ (0 < Protocol.range p < 2 ^ 48)
      /\ (- 2 ^ 53 < Protocol.range p < 2 ^ 53 -> name e = "RangeError")
      /\ (~ (- 2 ^ 53 < Protocol.range p < 2 ^ 53) -> name e = "TypeError")
      /\ console w' = console w /\ drawn w' = (drawn w + 32)%nat /\ stdin w' = stdin w
  | _ => False
  end.
Proof.
  unfold Protocol.start, Protocol.generateKey, Protocol.generateRandomIndex,
    Protocol.computeHmac, RandomGenerator.key, RandomGenerator.rand,
    HmacCalculator.calcHmac, HmacCalculator.printHmac.
  unfold mbind, M_bind, mret, M_ret, randomBytes, randomInt.
  cbn [Protocol.range Protocol.key Protocol.computerNum Protocol.hmac
       Protocol.userFirst drawn stdin console].
  pose proof (isSafeInteger_spec (Protocol.range p)) as Hsafe.
  destruct (isSafeInteger (Protocol.range p)); cbn [negb].
  - destruct (Z.ltb_spec 0 (Protocol.range p)),
      (Z.ltb_spec (Protocol.range p) (2 ^ 48));
      cbn [andb log drawn stdin console name RangeError];
      split_and!; try done; try tauto; cbn [drawn]; lia.
  - assert (Hout : ~ (- 2 ^ 53 < Protocol.range p < 2 ^ 53)).
    { intros Hin. apply Hsafe in Hin. discriminate Hin. }
    cbn [name TypeError drawn stdin console].
    split; [lia |]. split; [tauto |]. by split.
Qed.

Lemma start_returns_range `{NodeCrypto} (p p1 : Protocol.t) (w w1 : world) :
  Protocol.start p w = (Returned p1, w1) -> 0 < Protocol.range p < 2 ^ 48.
Proof.
  unfold Protocol.start, Protocol.generateKey, Protocol.generateRandomIndex,
    RandomGenerator.key, RandomGenerator.rand.
  unfold mbind, M_bind, mret, M_ret, randomBytes, randomInt.
  cbn [Protocol.range Protocol.key Protocol.computerNum Protocol.hmac
       Protocol.userFirst drawn stdin console].
  destruct (isSafeInteger (Protocol.range p)); cbn [negb]; [| discriminate].
  destruct (Z.ltb_spec 0 (Protocol.range p)), (Z.ltb_spec (Protocol.range p) (2 ^ 48));
    cbn [andb]; intros Hstart; try lia; discriminate Hstart.
Qed.

(** X7.  A round reveals what it committed to.  After [start], [reveal]
    does not fail; the console then shows, in this order, the tag, the number
    and the key, where the number is below the range, the key has 32 bytes
    and the tag is the upper-case HMAC of the number's byte under that key.
    Marking the round as won by the user does not change what is revealed. *)
Theorem round_reveals_what_it_committed `{NodeCrypto} (p p1 : Protocol.t) (w w1 : world)
    (first : bool) :
  Protocol.start p w = (Returned p1, w1) ->
  exists n k,
    0 <= n < Protocol.range p /\ length k = 32%nat
    /\ Protocol.reveal (Protocol.set_isUserFirst p1 first) w1
       = (Returned tt,
          {| drawn := drawn w1; stdin := stdin w1;
             console := console w
               ++ [OutHmac (toUpperCase
                              (hmac_sha3_256_hex k (HmacCalculator.bufferFrom (Some n))));
                   OutSelection (Some n); OutKey k] |}).
Proof.
  intros Hstart.
  pose proof (start_returns_range p p1 w w1 Hstart) as Hrange.
  rewrite start_eq in Hstart by done.
  injection Hstart as <- <-.
  exists (Z.of_N (entropy (drawn w + 32)) mod Protocol.range p),
    (map (fun i => byte_of_N (entropy i)) (seq (drawn w) 32)).
  split_and!.
  - apply Z.mod_pos_bound. lia.
  - apply Z.mod_pos_bound. lia.
  - by rewrite length_map, length_seq.
  - unfold Protocol.reveal, RandomGenerator.printKey, mbind, M_bind, log.
    cbn [Protocol.set_isUserFirst Protocol.key Protocol.computerNum round_after
         world_after drawn stdin console Protocol.hmac default].
    rewrite <- !app_assoc. reflexivity.
Qed.

Lemma round_reveals_what_it_committed_witness :
  exists p1 w1,
    @Protocol.start (tapeCrypto demo_tape) (Protocol.new 2) idle_world
    = (Returned p1, w1)
    /\ exists (n : Z) (k : list Byte.byte), 0 <= n < 2 /\ length k = 32%nat
         /\ (Protocol.reveal (Protocol.set_isUserFirst p1 false) w1).1 = Returned tt.
Proof.
  pose proof (@start_eq (tapeCrypto demo_tape) (Protocol.new 2) idle_world
                ltac:(simpl; lia)) as Hstart.
  eexists _, _. split; [exact Hstart |].
  destruct (@round_reveals_what_it_committed (tapeCrypto demo_tape)
              _ _ _ _ false Hstart) as (n & k & Hn & Hk & Hreveal).
  exists n, k. split; [exact Hn |]. split; [exact Hk |].
  rewrite Hreveal. reflexivity.
Defined.

(** ** What the parser accepts *)

Lemma split_comma_length str : length (split_comma str) = S (commas str).
Proof.
  induction str as [|c r IH]; simpl; [done |].
  destruct (Ascii.eqb c ","); simpl; [by rewrite IH |].
  destruct (split_comma r); simpl in *; lia.
Qed.

Lemma lookup_map {A B} (f : A -> B) (l : list A) (i : nat) :
  map f l !! i = f <$> l !! i.
Proof. revert i. induction l as [|x r IH]; intros [|i]; simpl; auto. Qed.

Lemma parse_accepts str :
  ~ refused str -> DiceConfigParser.parse str = inr (map Number (split_comma str)).
Proof.
  intros Hok. destruct (DiceConfigParser.parse str) as [e | cfg] eqn:Hp.
  - apply parse_inl in Hp as [Href _]. done.
  - apply parse_inr in Hp as (-> & _). done.
Qed.

(** X8.  The parser accepts a command line exactly when it has at least
    three configurations after the two leading arguments and none of them is
    refused.  It then builds one die per configuration, in order: die [i] has
    the converted pieces of configuration [i] as faces, one more face than the
    configuration has commas, at least two faces and no [NaN] among them. *)
Theorem parser_accepts_iff (process_argv : list string) :
  ((exists p, DiceConfigParser.new process_argv = inr p)
   <-> (3 <= length (drop 2 process_argv))%nat
       /\ Forall (fun str => ~ refused str) (drop 2 process_argv))
  /\ (forall p, DiceConfigParser.new process_argv = inr p ->
        (DiceConfigParser.getDiceConfig p).2 = seq 0 (length (drop 2 process_argv))
        /\ length (DiceConfigParser.getDiceConfig p).1 = length (drop 2 process_argv)
        /\ forall i str, drop 2 process_argv !! i = Some str ->
             exists d, (DiceConfigParser.getDiceConfig p).1 !! i = Some d
               /\ Dice.values d = map Number (split_comma str)
               /\ Dice.numberOfFaces d = S (commas str)
               /\ (2 <= Dice.numberOfFaces d)%nat
               /\ Forall (fun x => isNaN x = false) (Dice.values d)).
Proof.
  split.
  - split.
    + intros [p (Hlen & _ & Hall)%new_inr]. split; [done |].
      clear Hlen. induction Hall as [|str cfg strs cfgs Hp _ IH]; constructor; [| done].
      intros Href. assert (DiceConfigParser.parse str = inl (invalid_configuration str));
        [by apply parse_inl | congruence].
    + intros [Hlen Hall].
      exists {| DiceConfigParser.argv := drop 2 process_argv;
                DiceConfigParser.diceConfig :=
                  map (fun str => map Number (split_comma str)) (drop 2 process_argv) |}.
      apply new_inr. split_and!; [done | done |]. simpl.
      clear Hlen. induction Hall as [|str strs Hstr _ IH]; simpl; constructor; [| done].
      by apply parse_accepts.
  - intros p Hnew. pose proof (new_faces _ _ Hnew) as Hfaces.
    apply new_inr in Hnew as (Hlen & _ & Hall).
    unfold DiceConfigParser.getDiceConfig. cbn [fst snd].
    rewrite Hfaces, !length_map. split_and!; [done | done |].
    intros i str Hi.
    exists (Dice.new (map Number (split_comma str))). split_and!.
    + unfold store. by rewrite !lookup_map, Hi.
    + done.
    + unfold Dice.numberOfFaces. simpl. by rewrite length_map, split_comma_length.
    + unfold Dice.numberOfFaces. simpl.
      eapply Forall2_lookup_l in Hall as (cfg & _ & Hp); [| exact Hi].
      by apply parse_inr in Hp as (-> & Hlen2 & _).
    + eapply Forall2_lookup_l in Hall as (cfg & _ & Hp); [| exact Hi].
      by apply parse_inr in Hp as (-> & _ & Hnan).
Qed.

(** X9.  The parser reports one problem, the first it meets: with fewer than
    three configurations the count, whatever the configurations are; else
    the first refused configuration from the left, whatever follows it. *)
Theorem first_problem_is_reported (process_argv before after : list string)
    (str : string) :
  drop 2 process_argv = before ++ str :: after ->
  Forall (fun s => ~ refused s) before ->
  refused str ->
  DiceConfigParser.new process_argv
  = inl (if (length (drop 2 process_argv) <? 3)%nat
         then too_few_dice else invalid_configuration str).
Proof.
  intros Hargv Hbefore Hstr. unfold DiceConfigParser.new.
  destruct (length (drop 2 process_argv) <? 3)%nat; [done |].
  assert (Hmap : DiceConfigParser.map_throwing DiceConfigParser.parse
                   (drop 2 process_argv) = inl (invalid_configuration str)).
  { apply map_throwing_inl. exists before, str, after. split_and!; [done | |].
    - eapply Forall_impl; [exact Hbefore |]. intros s Hs. simpl.
      eexists. by apply parse_accepts.
    - by apply parse_inl. }
  by rewrite Hmap.
Qed.

Lemma first_problem_is_reported_witness :
  DiceConfigParser.new ["node"; "diceGame.js"; "1,2"; "3"; "4,5"; "x,y"]
  = inl (invalid_configuration "3")
  /\ DiceConfigParser.new ["node"; "diceGame.js"; "1,2"; "3"] = inl too_few_dice.
Proof.
  assert (Hok : Forall (fun s => ~ refused s) ["1,2"]).
  { constructor; [| constructor]. intros [Hshort | (tok & Htok & Hnan)].
    - simpl in Hshort. lia.
    - simpl in Htok. destruct Htok as [<- | [<- | []]]; vm_compute in Hnan; done. }
  assert (Hbad : refused "3") by (left; simpl; lia).
  split.
  - exact (first_problem_is_reported
             ["node"; "diceGame.js"; "1,2"; "3"; "4,5"; "x,y"]
             ["1,2"] ["4,5"; "x,y"] "3" eq_refl Hok Hbad).
  - exact (first_problem_is_reported
             ["node"; "diceGame.js"; "1,2"; "3"] ["1,2"] [] "3" eq_refl Hok Hbad).
Defined.

(** ** Comparing faces *)

(** Comparing the other way round gives the opposite answer. *)
Lemma SFcompare_antisym (x y : number) :
  SFcompare y x = CompOpp <$> SFcompare x y.
Proof.
  destruct x as [sx | sx | | sx mx ex], y as [sy | sy | | sy my ey]; simpl;
    try done; try (by destruct sx); try (by destruct sy);
    try (by destruct sx, sy).
  destruct sx, sy; simpl; try done; f_equal.
  - rewrite (Z.compare_antisym ey ex).
    destruct (ey ?= ex); simpl; try done.
    rewrite CompOpp_involutive. apply (Pos.compare_cont_antisym my mx Eq).
  - rewrite (Z.compare_antisym ey ex).
    destruct (ey ?= ex); simpl; try done.
    symmetry. apply (Pos.compare_cont_antisym mx my Eq).
Qed.

Lemma SFcompare_defined (x y : number) :
  isNaN x = false -> isNaN y = false -> is_Some (SFcompare x y).
Proof. destruct x, y; simpl; try done; eauto. Qed.

(** Of two numbers that are not [NaN], exactly one is greater or they are
    equal. *)
Lemma gt_trichotomy (x y : number) :
  isNaN x = false -> isNaN y = false ->
  (gt x y = true /\ gt y x = false /\ strictEq x y = false)
  \/ (gt x y = false /\ gt y x = true /\ strictEq x y = false)
  \/ (gt x y = false /\ gt y x = false /\ strictEq x y = true).
Proof.
  intros Hx Hy. unfold gt, strictEq, SFltb, SFeqb.
  rewrite (SFcompare_antisym x y).
  destruct (SFcompare_defined x y Hx Hy) as [[| |] ->]; simpl; auto.
Qed.

(** ** Wins, losses and ties *)

Lemma count_pairs_cons_r {A B} (f : A -> B -> bool) (l : list A) (y : B) (r : list B) :
  length (List.filter (fun p => f p.1 p.2) (list_prod l (y :: r)))
  = (length (List.filter (fun x => f x y) l)
     + length (List.filter (fun p => f p.1 p.2) (list_prod l r)))%nat.
Proof.
  induction l as [|x l IH]; simpl; [done |].
  destruct (f x y); simpl; rewrite !List.filter_app, !length_app, IH; lia.
Qed.

Lemma count_pairs_cons_l {A B} (f : A -> B -> bool) (x : A) (l : list A) (r : list B) :
  length (List.filter (fun p => f p.1 p.2) (list_prod (x :: l) r))
  = (length (List.filter (fun y => f x y) r)
     + length (List.filter (fun p => f p.1 p.2) (list_prod l r)))%nat.
Proof.
  simpl. rewrite List.filter_app, length_app. f_equal.
  induction r as [|y r IH]; simpl; [done |]. destruct (f x y); simpl; by rewrite IH.
Qed.

(** Counting the pairs of [l] and [r] that satisfy [f], from either side. *)
Lemma count_pairs_swap {A B} (f : A -> B -> bool) (l : list A) (r : list B) :
  length (List.filter (fun p => f p.1 p.2) (list_prod l r))
  = length (List.filter (fun p => f p.2 p.1) (list_prod r l)).
Proof.
  induction l as [|x l IH].
  - simpl. induction r as [|y r IHr]; simpl; [done | exact IHr].
  - rewrite count_pairs_cons_l, IH.
    by rewrite (count_pairs_cons_r (fun y x => f x y) r x l).
Qed.

Lemma count_three_ways {A} (f g h : A -> bool) (l : list A) :
  Forall (fun a => (f a = true /\ g a = false /\ h a = false)
                   \/ (f a = false /\ g a = true /\ h a = false)
                   \/ (f a = false /\ g a = false /\ h a = true)) l ->
  (length (List.filter f l) + length (List.filter g l) + length (List.filter h l))%nat
  = length l.
Proof.
  induction 1 as [|a l Ha _ IH]; simpl; [done |].
  destruct Ha as [(-> & -> & ->) | [(-> & -> & ->) | (-> & -> & ->)]]; simpl; lia.
Qed.

(** The three kinds of pairs between two dice without [NaN] faces. *)
Lemma pairs_add_up (dieA dieB : list number) :
  Forall (fun x => isNaN x = false) dieA ->
  Forall (fun x => isNaN x = false) dieB ->
  (length (winning_pairs dieA dieB) + length (winning_pairs dieB dieA)
   + length (tie_pairs dieA dieB))%nat
  = (length dieA * length dieB)%nat.
Proof.
  intros HA HB. unfold winning_pairs, tie_pairs.
  rewrite (count_pairs_swap gt dieB dieA), <- (length_prod dieA dieB).
  apply (count_three_ways (fun p => gt p.1 p.2) (fun p => gt p.2 p.1)
           (fun p => strictEq p.1 p.2)).
  apply List.Forall_forall. intros [a b] Hin. apply in_prod_iff in Hin as [Ha Hb].
  rewrite List.Forall_forall in HA, HB. simpl. apply gt_trichotomy; auto.
Qed.

(** X10.  Between two dice without [NaN] faces every ordered pair of faces
    is a win of one side or a tie, and of one kind only: the wins of the
    first die, the wins of the second and the ties add up to the product of
    the numbers of faces.  The two probabilities of a pair of dice therefore
    share the denominator, and ties count for neither. *)
Theorem wins_losses_ties_add_up (dieA dieB : list number) :
  Forall (fun x => isNaN x = false) dieA ->
  Forall (fun x => isNaN x = false) dieB ->
  (length (winning_pairs dieA dieB) + length (winning_pairs dieB dieA)
   + length (tie_pairs dieA dieB))%nat
  = (length dieA * length dieB)%nat
  /\ ProbabilityCalculator.computeWinProbability dieA dieB
     = div (ofZ (Z.of_nat (length (winning_pairs dieA dieB))))
           (ofZ (Z.of_nat (length dieA * length dieB)))
  /\ ProbabilityCalculator.computeWinProbability dieB dieA
     = div (ofZ (Z.of_nat (length (winning_pairs dieB dieA))))
           (ofZ (Z.of_nat (length dieA * length dieB))).
Proof.
  intros HA HB. split_and!.
  - by apply pairs_add_up.
  - unfold ProbabilityCalculator.computeWinProbability. by rewrite wins_count.
  - unfold ProbabilityCalculator.computeWinProbability.
    by rewrite wins_count, (Nat.mul_comm (length dieB)).
Qed.

Lemma wins_losses_ties_add_up_witness :
  let dieA := map ofZ [2; 2; 4; 4; 9; 9] in
  let dieB := map ofZ [1; 1; 6; 6; 8; 8] in
  (length (winning_pairs dieA dieB) + length (winning_pairs dieB dieA)
   + length (tie_pairs dieA dieB))%nat = 36%nat.
Proof.
  apply (wins_losses_ties_add_up (map ofZ [2; 2; 4; 4; 9; 9]) (map ofZ [1; 1; 6; 6; 8; 8]));
    repeat constructor.
Defined.

(** ** The verdict *)

(** X11.  [result] prints exactly one line.  Between two numbers that are
    not [NaN] the line follows the order: the user wins exactly when the
    user's roll is greater, it is a draw exactly when the rolls are equal, the
    computer wins exactly when its roll is greater.  When only one of the two
    rolls has no value the line says that the computer wins, whichever roll
    is missing; when both are missing it is a draw. *)
Theorem result_follows_the_order (user computer : option number) (w : world) :
  DiceRoller.result user computer w = (Returned tt, emit [verdict user computer] w)
  /\ (forall x y, user = Some x -> computer = Some y ->
        isNaN x = false -> isNaN y = false ->
        (verdict user computer = OutWin user computer <-> gt x y = true)
        /\ (verdict user computer = OutDraw user computer <-> strictEq x y = true)
        /\ (verdict user computer = OutLose user computer <-> gt y x = true))
  /\ (forall x, verdict (Some x) None = OutLose (Some x) None
                /\ verdict None (Some x) = OutLose None (Some x))
  /\ verdict None None = OutDraw None None.
Proof.
  split_and!.
  - unfold DiceRoller.result, verdict.
    destruct DiceRoller.gt_result; [done |]. by destruct DiceRoller.strictEq_result.
  - intros x y -> -> Hx Hy. unfold verdict. simpl.
    destruct (gt_trichotomy x y Hx Hy)
      as [(-> & -> & ->) | [(-> & -> & ->) | (-> & -> & ->)]]; by split_and!.
  - done.
  - done.
Qed.

(** ** A roll round *)

Section RollRound.
Context `{NodeCrypto}.

Lemma DiceRoller_start_rolls r st diceList (I : list event -> Prop) :
  stable I ->
  hoare (on_console I) (DiceRoller.start r st diceList)
    (fun res w =>
       I (console w)
       /\ exists c u die,
            0 <= c < Protocol.range (DiceRoller.protocol r) /\ (u < 6)%nat
            /\ rolled_die r st = Some die
            /\ res = Dice.roll die (DiceRoller.fairNumber (Some c) u)
            /\ OutFair (Some c) u (Some (DiceRoller.fairNumber (Some c) u)) ∈ console w
            /\ last (console w) = Some (OutRoll (DiceRoller.whose r) res))
    (on_console anything).
Proof.
  intros HI. unfold DiceRoller.start.
  hnext (hoare_log_console _ I I anything); [by intros; apply HI | intros ?].
  eapply hoare_bind;
    [apply (hoare_start _ I I anything); [by intros; apply HI | done] |].
  intros p. cbv beta. apply hoare_assume. intros (_ & _ & _ & (c & Hc & Hrange) & _).
  eapply hoare_bind;
    [apply (@hoare_prompt_console _ _ _ _ I I anything);
     [by intros; apply HI | by intros; apply HI | by intros; apply HI | done] |].
  intros u. cbv beta. apply hoare_assume. intros Hu. simpl in Hu.
  hnext (hoare_reveal _ I I I anything);
    [by intros; apply HI | by intros; apply HI | done | intros ?].
  unfold Protocol.computerNumber. rewrite Hc.
  set (fair := DiceRoller.fairNumber (Some c) u).
  hnext (hoare_log_console _ I (fun evs => I evs /\ OutFair (Some c) u (Some fair) ∈ evs)
           anything); [| intros ?].
  { intros evs Hevs. split; [by apply HI |]. apply elem_of_app. right. by left. }
  intros w [HIw Hfair].
  unfold mbind, M_bind, DiceRoller.rollOf.
  assert (Hdie : (if DiceRoller.isUserDice (DiceRoller.whose r)
                  then DiceRoller.rollOf st (DiceRoller.userDice r) fair
                  else DiceRoller.rollOf st (DiceRoller.computerDice r) fair) w
                 = match rolled_die r st with
                   | Some die => (Returned (Dice.roll die fair), w)
                   | None => (Thrown (TypeError "Cannot read properties of null (reading 'roll')"), w)
                   end).
  { unfold rolled_die, DiceRoller.rollOf.
    destruct (DiceRoller.isUserDice (DiceRoller.whose r)); by destruct (_ ≫= _). }
  fold (DiceRoller.rollOf st (DiceRoller.userDice r) fair).
  fold (DiceRoller.rollOf st (DiceRoller.computerDice r) fair).
  rewrite Hdie. destruct (rolled_die r st) as [die|]; [| done].
  cbn [log mret M_ret console]. split; [by apply HI |].
  exists c, u, die.
  split; [exact Hrange |]. split; [exact Hu |]. split; [reflexivity |].
  split; [reflexivity |]. split.
  - apply elem_of_app. by left.
  - by rewrite last_snoc.
Qed.

End RollRound.



(** ** How a run ends *)

Lemma ends_well_ret {A} (a : A) (P : world -> Prop) Q :
  (forall w, P w -> Q a w) -> ends_well P (mret a) Q.
Proof. intros HQ w Hw. apply HQ, Hw. Qed.

Lemma ends_well_bind {A B} (m : M A) (f : A -> M B) P R Q :
  ends_well P m R -> (forall a, ends_well (R a) (f a) Q) -> ends_well P (m ≫= f) Q.
Proof.
  intros Hm Hf w Hw. specialize (Hm w Hw).
  unfold mbind, M_bind. destruct (m w) as [[a| | |] w']; try exact Hm.
  apply (Hf a w' Hm).
Qed.

Lemma ends_well_pre {A} (m : M A) (P P' : world -> Prop) Q :
  ends_well P' m Q -> (forall w, P w -> P' w) -> ends_well P m Q.
Proof. intros Hm HP w Hw. apply Hm, HP, Hw. Qed.

Lemma ends_well_assume {A} (fact : Prop) (P : world -> Prop) (m : M A) Q :
  (fact -> ends_well P m Q) -> ends_well (fun w => P w /\ fact) m Q.
Proof. intros Hm w [Hw Hf]. by apply Hm. Qed.

(** Output changes neither the count of draws nor the lines to read. *)
Lemma ends_well_log e d :
  ends_well (fun w => drawn w = d) (log e) (fun _ w => drawn w = d).
Proof. by intros w Hw. Qed.

(** One step of a sequence for [ends_well]. *)
Tactic Notation "wnext" open_constr(lem) :=
  eapply ends_well_bind;
  [ eapply ends_well_pre;
    [ eapply lem
    | intros ? Hpre; first [exact Hpre | exact (proj1 Hpre)] ]
  | ].

Section Ends.
Context `{NodeCrypto}.

Lemma ends_well_rand max d :
  0 < max < 2 ^ 48 ->
  ends_well (fun w => drawn w = d) (RandomGenerator.rand max)
    (fun z w => drawn w = S d /\ 0 <= z < max).
Proof.
  intros [Hlo Hhi] w Hw. unfold RandomGenerator.rand, randomInt.
  rewrite (isSafeInteger_range max) by done.
  apply Z.ltb_lt in Hlo as Hlo', Hhi as Hhi'. rewrite Hlo', Hhi'. simpl.
  split; [by rewrite Hw | by apply Z.mod_pos_bound].
Qed.

Lemma ends_well_start p d :
  0 < Protocol.range p < 2 ^ 48 ->
  ends_well (fun w => drawn w = d) (Protocol.start p)
    (fun p' w => drawn w = (d + 33)%nat /\ is_Some (Protocol.key p')).
Proof.
  intros Hrange w Hw. rewrite start_eq by done. simpl. split; [lia | eauto].
Qed.

Lemma ends_well_reveal p d :
  is_Some (Protocol.key p) ->
  ends_well (fun w => drawn w = d) (Protocol.reveal p) (fun _ w => drawn w = d).
Proof.
  intros [k Hk] w Hw. unfold Protocol.reveal, RandomGenerator.printKey, mbind, M_bind.
  by rewrite Hk.
Qed.

Lemma ends_well_prompt {A} message (options : list A) diceList d :
  ends_well (fun w => drawn w = d) (Menu.promptSelection message options diceList)
    (fun i w => drawn w = d /\ (i < length options)%nat).
Proof.
  intros w Hw. rewrite promptSelection_eq. unfold Menu.readInput.
  pose proof (readInput_loop_contract "Your selection: " (length options) diceList
                (stdin (emit (menu_lines message (length options)) w))
                (emit (menu_lines message (length options)) w) eq_refl) as Hloop.
  cbv zeta in Hloop. destruct Hloop as (Hd & _ & Hout).
  destruct (Menu.readInput_loop _ _ _ _ _) as [[i| |c|] w']; simpl in *; try done.
  - destruct Hout as [Hi _]. split; [by rewrite Hd | done].
  - by destruct Hout.
Qed.

(** The selection on a set of at least two dice: both parties get a die of
    the set, and 34 values are drawn. *)
Lemma ends_well_selection s st diceList d :
  (2 <= length (DiceSelection.dice s))%nat ->
  Z.of_nat (length (DiceSelection.dice s)) < 2 ^ 48 ->
  0 < Protocol.range (DiceSelection.protocol s) < 2 ^ 48 ->
  ends_well (fun w => drawn w = d) (DiceSelection.start s st diceList)
    (fun s' w =>
       drawn w = (d + 34)%nat
       /\ exists a b, DiceSelection.userDice s' = Some a
                      /\ DiceSelection.computerDice s' = Some b
                      /\ a ∈ DiceSelection.dice s /\ b ∈ DiceSelection.dice s).
Proof.
  intros Hlen Hbig Hrange. unfold DiceSelection.start.
  wnext ends_well_log. intros ?.
  eapply ends_well_bind; [by apply ends_well_start |].
  intros p. cbv beta. apply ends_well_assume. intros Hkey.
  wnext @ends_well_prompt. intros userGuess.
  wnext ends_well_reveal; [by destruct (DiceSelection.guessed _ _) | intros ?].
  destruct Protocol.isUserFirst.
  - eapply ends_well_bind; [apply @ends_well_prompt |].
    intros index. cbv beta. apply ends_well_assume. intros Hindex.
    wnext ends_well_log. intros ?.
    assert (Hrest : length (delete index (DiceSelection.dice s))
                    = (length (DiceSelection.dice s) - 1)%nat).
    { apply length_delete. by apply lookup_lt_is_Some_2. }
    eapply ends_well_bind; [apply ends_well_rand; rewrite Hrest; lia |].
    intros r. cbv beta. apply ends_well_assume. intros Hr.
    wnext ends_well_log. intros ?.
    apply ends_well_ret. intros w Hw.
    destruct (lookup_lt_is_Some_2 (DiceSelection.dice s) index Hindex) as [ud Ha].
    destruct (lookup_lt_is_Some_2 (delete index (DiceSelection.dice s)) (Z.to_nat r))
      as [cd Hb]; [lia |].
    split; [lia |]. exists ud, cd. simpl. split_and!; [done | done | |].
    + by eapply list_elem_of_lookup_2.
    + apply (elem_of_sublist (delete index (DiceSelection.dice s)));
        [by eapply list_elem_of_lookup_2 | apply sublist_delete].
  - eapply ends_well_bind; [apply ends_well_rand; lia |].
    intros index. cbv beta. apply ends_well_assume. intros Hindex.
    wnext ends_well_log. intros ?.
    assert (Hrest : length (delete (Z.to_nat index) (DiceSelection.dice s))
                    = (length (DiceSelection.dice s) - 1)%nat).
    { apply length_delete. apply lookup_lt_is_Some_2. lia. }
    eapply ends_well_bind; [apply @ends_well_prompt |].
    intros i. cbv beta. apply ends_well_assume. intros Hi.
    wnext ends_well_log. intros ?.
    apply ends_well_ret. intros w Hw.
    destruct (lookup_lt_is_Some_2 (DiceSelection.dice s) (Z.to_nat index))
      as [cd Hb]; [lia |].
    destruct (lookup_lt_is_Some_2 (delete (Z.to_nat index) (DiceSelection.dice s)) i Hi)
      as [ud Ha].
    split; [lia |]. exists ud, cd. simpl. split_and!; [done | done | |].
    + apply (elem_of_sublist (delete (Z.to_nat index) (DiceSelection.dice s)));
        [by eapply list_elem_of_lookup_2 | apply sublist_delete].
    + by eapply list_elem_of_lookup_2.
Qed.

(** A roll round between two dice of the store: 33 values are drawn. *)
Lemma ends_well_roller r st diceList d :
  0 < Protocol.range (DiceRoller.protocol r) < 2 ^ 48 ->
  is_Some (DiceRoller.userDice r ≫= fun a => st !! a) ->
  is_Some (DiceRoller.computerDice r ≫= fun a => st !! a) ->
  ends_well (fun w => drawn w = d) (DiceRoller.start r st diceList)
    (fun _ w => drawn w = (d + 33)%nat).
Proof.
  intros Hrange [du Hu] [dc Hc]. unfold DiceRoller.start.
  wnext ends_well_log. intros ?.
  eapply ends_well_bind; [by apply ends_well_start |].
  intros p. cbv beta. apply ends_well_assume. intros Hkey.
  wnext @ends_well_prompt. intros userSelection.
  wnext ends_well_reveal; [done | intros ?].
  wnext ends_well_log. intros ?.
  eapply ends_well_bind.
  { instantiate (1 := fun _ w => drawn w = (d + 33)%nat).
    intros w Hw. unfold DiceRoller.rollOf.
    destruct DiceRoller.isUserDice; [rewrite Hu | rewrite Hc]; exact Hw. }
  intros result. wnext ends_well_log. intros ?.
  by apply ends_well_ret.
Qed.

Lemma ends_well_main process_argv :
  Z.of_nat (length process_argv) < 2 ^ 48 ->
  ends_well (fun w => drawn w = 0%nat) (main process_argv) (fun _ w => drawn w = 100%nat).
Proof.
  intros Hbig. unfold main.
  destruct (DiceConfigParser.new process_argv) as [e | dice] eqn:Hnew.
  - wnext ends_well_log. intros ?. by intros w Hw.
  - pose proof (new_faces _ _ Hnew) as Hfaces.
    apply new_inr in Hnew as (Hlen & _ & _).
    unfold DiceConfigParser.getDiceConfig, DiceConfigParser.getRawDiceConfig.
    rewrite Hfaces, length_map.
    set (n := length (drop 2 process_argv)) in *.
    assert (Hn : Z.of_nat n < 2 ^ 48).
    { subst n. rewrite length_drop. lia. }
    eapply ends_well_bind.
    { apply ends_well_selection; simpl; rewrite ?length_seq; [lia | lia | lia]. }
    intros selection. cbv beta. apply ends_well_assume.
    intros (ud & cd & Ha & Hb & Hina & Hinb). simpl in Hina, Hinb.
    apply elem_of_seq in Hina, Hinb.
    assert (Hst : forall i, (i < n)%nat ->
              is_Some (Some i ≫= fun a =>
                 map Dice.new (map (fun str => map Number (split_comma str))
                                   (drop 2 process_argv)) !! a)).
    { intros i Hi. simpl. apply lookup_lt_is_Some_2. rewrite !length_map. fold n. lia. }
    wnext ends_well_log. intros ?.
    unfold DiceSelection.getUserDice, DiceSelection.getComputerDice. rewrite Ha, Hb.
    eapply ends_well_bind;
      [apply ends_well_roller; [simpl; lia | apply Hst; lia | apply Hst; lia] |].
    intros computerResult.
    eapply ends_well_bind;
      [apply ends_well_roller; [simpl; lia | apply Hst; lia | apply Hst; lia] |].
    intros userResult. intros w Hw. unfold DiceRoller.result.
    destruct DiceRoller.gt_result; [| destruct DiceRoller.strictEq_result];
      simpl; lia.
Qed.

End Ends.

(** X13.  A run with fewer than 2^48 arguments never ends in an uncaught
    error.  It ends normally, after exactly 100 values were taken from the
    random source (three keys of 32 bytes, three numbers, one choice of die);
    or the process leaves with status 1; or it waits for a line and none is
    left to read. *)
Theorem run_never_throws `{NodeCrypto} (process_argv lines : list string) :
  Z.of_nat (length process_argv) < 2 ^ 48 ->
  match run process_argv lines with
  | (Returned _, w) => drawn w = 100%nat
  | (Thrown _, _) => False
  | (Exited c, _) => c = 1
  | (Waiting, w) => stdin w = []
  end.
Proof.
  intros Hbig. unfold run.
  exact (ends_well_main process_argv Hbig
           {| drawn := 0; stdin := lines; console := [] |} eq_refl).
Qed.

Lemma run_never_throws_witness :
  drawn (@run (tapeCrypto demo_tape) demo_argv demo_lines).2 = 100%nat.
Proof.
  pose proof (@run_never_throws (tapeCrypto demo_tape) demo_argv demo_lines
                ltac:(vm_compute; reflexivity)) as Hrun.
  assert (Hout : (@run (tapeCrypto demo_tape) demo_argv demo_lines).1 = Returned tt)
    by (vm_compute; reflexivity).
  destruct (@run (tapeCrypto demo_tape) demo_argv demo_lines) as [o w].
  simpl in Hout. subst o. exact Hrun.
Defined.

(** ** The verdict of a game *)

Section Verdict.
Context `{NodeCrypto}.

Lemma main_verdict process_argv :
  hoare (on_console anything) (main process_argv)
    (fun _ w =>
       exists user computer,
         last (console w) = Some (verdict user computer)
         /\ OutRoll "My" computer ∈ console w
         /\ OutRoll "Your" user ∈ console w)
    (on_console anything).
Proof.
  unfold main. destruct DiceConfigParser.new as [e | dice].
  - hnext (hoare_log_console _ anything anything anything); [done | intros ?].
    by apply hoare_exit.
  - destruct DiceConfigParser.getDiceConfig as [st refs].
    eapply hoare_bind.
    { eapply hoare_weaken; [apply DiceSelection_start_assigned | done | | done].
      intros s' w _. exact (I : on_console anything w). }
    intros selection.
    hnext (hoare_log_console _ anything anything anything); [done | intros ?].
    eapply hoare_bind; [by apply (DiceRoller_start_rolls _ _ _ anything) |].
    intros computer.
    eapply hoare_bind.
    { eapply hoare_weaken;
        [apply (DiceRoller_start_rolls _ _ _ (fun evs => OutRoll "My" computer ∈ evs))
        | | intros res w Hpost; exact Hpost | done].
      - intros evs e Hin. apply elem_of_app. by left.
      - intros w (_ & c & u & die & _ & _ & _ & _ & _ & Hlast).
        unfold on_console. simpl in Hlast.
        apply last_Some in Hlast as [before ->]. apply elem_of_app. right. by left. }
    intros user. simpl DiceRoller.whose.
    intros w (Hmy & c & u & die & _ & _ & _ & _ & _ & Hlast).
    assert (Hyour : OutRoll "Your" user ∈ console w).
    { apply last_Some in Hlast as [before ->]. apply elem_of_app. right. by left. }
    unfold DiceRoller.result. fold (verdict user computer).
    assert (Hlog : forall e, log e w = (Returned tt, emit [e] w)) by done.
    assert (Hres : (if DiceRoller.gt_result user computer
                    then log (OutWin user computer)
                    else if DiceRoller.strictEq_result user computer
                         then log (OutDraw user computer)
                         else log (OutLose user computer)) w
                   = (Returned tt, emit [verdict user computer] w)).
    { unfold verdict. destruct DiceRoller.gt_result; [done |].
      by destruct DiceRoller.strictEq_result. }
    rewrite Hres. exists user, computer. cbn [emit console]. split_and!.
    + by rewrite last_snoc.
    + apply elem_of_app. by left.
    + apply elem_of_app. by left.
Qed.

End Verdict.

(** X14.  A game that reaches its end closes with one verdict, and the
    verdict compares the two rolls that the console shows: the result of
    the user's roll against the result of the computer's roll. *)
Theorem verdict_compares_the_rolls `{NodeCrypto} (process_argv lines : list string)
    (u : unit) :
  (run process_argv lines).1 = Returned u ->
  exists user computer,
    last (console (run process_argv lines).2) = Some (verdict user computer)
    /\ OutRoll "My" computer ∈ console (run process_argv lines).2
    /\ OutRoll "Your" user ∈ console (run process_argv lines).2.
Proof.
  intros Hend.
  pose proof (main_verdict process_argv {| drawn := 0; stdin := lines; console := [] |} I)
    as Hrun.
  unfold run in *. destruct main as [[?| | |] w]; try done.
Qed.

Lemma verdict_compares_the_rolls_witness :
  last (console (@run (tapeCrypto demo_tape) demo_argv demo_lines).2)
  = Some (verdict (Some (ofZ 9)) (Some (ofZ 1))).
Proof.
  destruct (@verdict_compares_the_rolls (tapeCrypto demo_tape) demo_argv demo_lines tt
              ltac:(vm_compute; reflexivity)) as (user & computer & _).
  vm_compute. reflexivity.
Defined.

(** ** The probability table *)

(** X15.  [generate] prints one table and nothing else happens.  The table
    has one row and one column per configured die, in the order of the
    command line, and the cell of row [i] and column [j] is the win
    probability of die [i] against die [j].  On the diagonal a die without
    [NaN] faces meets itself: its wins counted twice and its ties make up all
    pairs of its faces, so its cell is the quotient of at most half of them. *)
Theorem table_has_a_cell_per_pair_of_dice (diceList : list (list number)) (w : world) :
  exists cells,
    TableGenerator.generate diceList w = (Returned tt, emit [OutTable cells] w)
    /\ length cells = length diceList
    /\ Forall (fun row => length row = length diceList) cells
    /\ (forall i j di dj, diceList !! i = Some di -> diceList !! j = Some dj ->
          cells !! i ≫= (fun row => row !! j)
          = Some (ProbabilityCalculator.computeWinProbability di dj))
    /\ (forall i di, diceList !! i = Some di -> Forall (fun x => isNaN x = false) di ->
          cells !! i ≫= (fun row => row !! i)
          = Some (div (ofZ (Z.of_nat (length (winning_pairs di di))))
                      (ofZ (Z.of_nat (length di * length di))))
          /\ (2 * length (winning_pairs di di) + length (tie_pairs di di))%nat
             = (length di * length di)%nat).
Proof.
  eexists. split; [reflexivity |].
  assert (Hcell : forall i j di dj, diceList !! i = Some di -> diceList !! j = Some dj ->
            map (fun di => map (fun dj =>
                   ProbabilityCalculator.computeWinProbability di dj) diceList) diceList
              !! i ≫= (fun row => row !! j)
            = Some (ProbabilityCalculator.computeWinProbability di dj)).
  { intros i j di dj Hi Hj. rewrite lookup_map, Hi. simpl. by rewrite lookup_map, Hj. }
  split_and!.
  - by rewrite length_map.
  - apply List.Forall_forall. intros row Hrow.
    apply in_map_iff in Hrow as (di & <- & _). by rewrite length_map.
  - exact Hcell.
  - intros i di Hi Hnan. split.
    + rewrite (Hcell i i di di Hi Hi).
      unfold ProbabilityCalculator.computeWinProbability. by rewrite wins_count.
    + pose proof (pairs_add_up di di Hnan Hnan). lia.
Qed.

(** ** The key as it is printed *)

Lemma hex_of_byte_reads_back (b : Byte.byte) :
  (hi ← digit_of 16 (upperChar (hexDigit (Byte.to_N b / 16)));
   lo ← digit_of 16 (upperChar (hexDigit (Byte.to_N b mod 16)));
   Some (byte_of_N (Z.to_N (16 * hi + lo)))) = Some b.
Proof. destruct b; vm_compute; reflexivity. Qed.

(** X16.  The key is printed without loss: its text has two upper-case
    hexadecimal digits per byte and reads back to the same bytes, so two
    different keys are never printed alike and the 32 bytes of a round's key
    make 64 characters. *)
Theorem key_text_reads_back (key : list Byte.byte) :
  fromHex (keyText key) = Some key
  /\ String.length (keyText key) = (2 * length key)%nat
  /\ (forall key', keyText key' = keyText key -> key' = key).
Proof.
  assert (Hback : forall k, fromHex (keyText k) = Some k).
  { unfold keyText. induction k as [|b r IH]; [done |].
    cbn [toHex toUpperCase fromHex].
    pose proof (hex_of_byte_reads_back b) as Hb.
    destruct (digit_of 16 (upperChar (hexDigit (Byte.to_N b / 16)))) as [hi|];
      [| done]. cbn [mbind option_bind] in Hb |- *.
    destruct (digit_of 16 (upperChar (hexDigit (Byte.to_N b mod 16)))) as [lo|];
      [| done]. cbn [mbind option_bind] in Hb |- *.
    rewrite IH. cbn [mbind option_bind]. by injection Hb as ->. }
  split_and!.
  - apply Hback.
  - unfold keyText. induction key as [|b r IH]; [done |].
    cbn [toHex toUpperCase String.length length]. rewrite IH. lia.
  - intros key' Heq. apply (f_equal fromHex) in Heq. rewrite !Hback in Heq.
    by injection Heq.
Qed.

(** ** The guess decides the first move *)

Lemma readInput_loop_answered prompt options diceList lines w :
  match Menu.readInput_loop prompt options diceList lines w with
  | (Returned i, w') =>
      exists before line,
        console w' = before ++ [Question prompt line] /\ i = NumberOfIndex (trim line)
  | _ => True
  end.
Proof.
  revert w. induction lines as [|line rest IH]; intros w; [done |].
  cbn [Menu.readInput_loop].
  destruct (negb (includes (trim line) options)); [apply IH |].
  destruct (String.eqb (trim line) "?"); [apply IH |].
  destruct (String.eqb (trim line) "X"); [done |].
  simpl. eauto.
Qed.

Lemma guess_revealed_stable g n : stable (guess_revealed g n).
Proof.
  intros evs e (before & line & k & after & -> & Hg).
  exists before, line, k, (after ++ [e]). split; [| done].
  by rewrite <- !app_assoc.
Qed.

Section Guess.
Context `{NodeCrypto}.

Lemma hoare_prompt_answered {A} message (options : list A) diceList :
  hoare (on_console anything) (Menu.promptSelection message options diceList)
    (fun g w => answered g (console w)) (on_console anything).
Proof.
  intros w _. rewrite promptSelection_eq. unfold Menu.readInput.
  pose proof (readInput_loop_answered "Your selection: "
                (menu_options (length options)) diceList
                (stdin (emit (menu_lines message (length options)) w))
                (emit (menu_lines message (length options)) w)) as Hloop.
  by destruct Menu.readInput_loop as [[g| | |] w'].
Qed.

Lemma DiceSelection_start_guess s st diceList :
  Protocol.userFirst (DiceSelection.protocol s) = false ->
  hoare (on_console anything) (DiceSelection.start s st diceList)
    (fun s' w =>
       exists g n k,
         0 <= n < Protocol.range (DiceSelection.protocol s)
         /\ Protocol.computerNum (DiceSelection.protocol s') = Some n
         /\ guess_revealed g n (console w)
         /\ Protocol.isUserFirst (DiceSelection.protocol s') = (n =? Z.of_nat g)
         /\ (k < length (DiceSelection.dice s))%nat
         /\ DiceSelection.dice s' = delete k (DiceSelection.dice s)
         /\ DiceSelection.dice s !! k
            = (if Protocol.isUserFirst (DiceSelection.protocol s')
               then DiceSelection.userDice s' else DiceSelection.computerDice s'))
    (on_console anything).
Proof.
  intros Hfirst. unfold DiceSelection.start.
  hnext (hoare_log_console _ anything anything anything); [done | intros ?].
  eapply hoare_bind; [by apply (hoare_start _ anything anything anything) |].
  intros p. cbv beta. apply hoare_assume.
  intros (_ & Hflag & (key & Hkey & _) & (n & Hn & Hrange) & _).
  rewrite Hfirst in Hflag.
  eapply hoare_bind.
  { eapply hoare_weaken; [apply @hoare_prompt_answered | by intros | | done].
    intros g w Hpost. exact Hpost. }
  intros g. unfold Protocol.computerNumber. rewrite Hn.
  set (p' := if DiceSelection.guessed g (Some n)
             then Protocol.set_isUserFirst p true else p).
  assert (Hnum : Protocol.computerNum p' = Some n).
  { subst p'. by destruct DiceSelection.guessed. }
  assert (Hwho : Protocol.isUserFirst p' = (n =? Z.of_nat g)).
  { subst p'. unfold DiceSelection.guessed, Protocol.isUserFirst.
    destruct (n =? Z.of_nat g); [done | exact Hflag]. }
  eapply hoare_bind.
  { apply (hoare_reveal p' (answered g)
             (fun evs => exists before line,
                evs = before ++ [Question "Your selection: " line; OutSelection (Some n)]
                /\ g = NumberOfIndex (trim line))
             (guess_revealed g n) anything); [| | done].
    - intros evs (before & line & -> & Hg). exists before, line. rewrite Hnum.
      split; [by rewrite <- app_assoc | done].
    - intros evs k (before & line & -> & Hg). exists before, line, k, [].
      split; [by rewrite <- !app_assoc | done]. }
  intros ?. pose proof (guess_revealed_stable g n) as Hstable.
  destruct (Protocol.isUserFirst p') eqn:Hbranch.
  - eapply hoare_bind;
      [apply (@hoare_prompt_console _ _ _ _ (guess_revealed g n) (guess_revealed g n)
                anything); [by intros; apply Hstable.. | done] |].
    intros index. cbv beta. apply hoare_assume. intros Hindex.
    hnext (hoare_log_console _ (guess_revealed g n) (guess_revealed g n) anything);
      [by intros; apply Hstable | intros ?].
    hnext (hoare_rand _ (guess_revealed g n) anything); [done | intros r].
    hnext (hoare_log_console _ (guess_revealed g n) (guess_revealed g n) anything);
      [by intros; apply Hstable | intros ?].
    apply hoare_ret. intros w Hw. exists g, n, index. cbn.
    rewrite Hbranch. by repeat (split; [done |]).
  - hnext (hoare_rand _ (guess_revealed g n) anything); [done | intros index].
    cbv beta. apply hoare_assume. intros Hindex.
    hnext (hoare_log_console _ (guess_revealed g n) (guess_revealed g n) anything);
      [by intros; apply Hstable | intros ?].
    hnext (@hoare_prompt_console _ _ _ _ (guess_revealed g n) (guess_revealed g n)
             anything); [by intros; apply Hstable.. | done | intros i].
    hnext (hoare_log_console _ (guess_revealed g n) (guess_revealed g n) anything);
      [by intros; apply Hstable | intros ?].
    apply hoare_ret. intros w Hw. exists g, n, (Z.to_nat index). cbn.
    rewrite Hbranch. split; [done |]. split; [done |]. split; [done |].
    split; [done |]. split; [lia | done].
Qed.

End Guess.

(** X17.  The guess decides who moves first.  When the selection returns,
    the console shows the accepted answer followed by the computer's number
    and the key; the user has the first move exactly when the answer reads as
    that number; and the die removed from the set is the one of the party
    that moved first. *)
Theorem guess_decides_first_move `{NodeCrypto} (s s' : DiceSelection.t) (st : store)
    (diceList : list (list number)) (w w' : world) :
  Protocol.userFirst (DiceSelection.protocol s) = false ->
  DiceSelection.start s st diceList w = (Returned s', w') ->
  exists (n : Z) (line : string) (k : nat) before key after,
    0 <= n < Protocol.range (DiceSelection.protocol s)
    /\ console w'
       = before ++ [Question "Your selection: " line; OutSelection (Some n); OutKey key]
         ++ after
    /\ (Protocol.isUserFirst (DiceSelection.protocol s') = true
        <-> n = Z.of_nat (NumberOfIndex (trim line)))
    /\ (k < length (DiceSelection.dice s))%nat
    /\ DiceSelection.dice s' = delete k (DiceSelection.dice s)
    /\ DiceSelection.dice s !! k
       = (if Protocol.isUserFirst (DiceSelection.protocol s')
          then DiceSelection.getUserDice s' else DiceSelection.getComputerDice s').
Proof.
  intros Hfirst Hrun.
  pose proof (DiceSelection_start_guess s st diceList Hfirst w I) as Hspec.
  rewrite Hrun in Hspec.
  destruct Hspec as (g & n & k & Hn & _ & (before & line & key & after & Hc & Hg)
                     & Hwho & Hk & Hdice & Hdie).
  exists n, line, k, before, key, after.
  split; [done |]. split; [done |]. split; [| by split_and!].
  rewrite Hwho, <- Hg. apply Z.eqb_eq.
Qed.

Lemma guess_decides_first_move_witness :
  exists s', @selection_of (tapeCrypto demo_tape) demo_argv demo_lines = Some s'
    /\ Protocol.isUserFirst (DiceSelection.protocol s') = true.
Proof.
  assert (Hrun : exists s' w',
             @DiceSelection.start (tapeCrypto demo_tape)
               (DiceSelection.new [0; 1; 2]%nat (Protocol.new 2))
               (dice_store_of demo_argv) [] {| drawn := 0; stdin := demo_lines; console := [] |}
             = (Returned s', w')).
  { eexists _, _. vm_compute. reflexivity. }
  destruct Hrun as (s' & w' & Hrun).
  destruct (@guess_decides_first_move (tapeCrypto demo_tape)
              (DiceSelection.new [0; 1; 2]%nat (Protocol.new 2)) _ _ _ _ _ eq_refl Hrun)
    as (n & line & _).
  eexists. split; vm_compute; reflexivity.
Defined.

(** ** The exit on a refused command line *)

(** X18.  When fewer than three configurations are given, or one of them
    has fewer than two comma-separated pieces or a piece that [Number] turns
    into [NaN], the program prints one error line that names the problem and
    leaves with status 1, before anything else is printed, read or drawn from
    the random source. *)
Theorem refused_configuration_exits_1 `{NodeCrypto} (process_argv lines : list string) :
  (length (drop 2 process_argv) < 3)%nat
  \/ (exists str, List.In str (drop 2 process_argv) /\ refused str) ->
  exists msg,
    run process_argv lines
    = (Exited 1, {| drawn := 0; stdin := lines; console := [ErrLine msg] |})
    /\ exitStatus (run process_argv lines).1 = Some 1
    /\ (msg = "You must provide at least 3 dice configurations."
        \/ exists str, List.In str (drop 2 process_argv) /\ refused str
             /\ msg = ("Invalid dice configuration: " ++ quote ++ str ++ quote
                       ++ ". Expected comma-separated numbers.")%string).
Proof.
  intros Hbad. destruct (new_refuses _ Hbad) as [e He].
  exists (message e).
  assert (Hrun : run process_argv lines
                 = (Exited 1, {| drawn := 0; stdin := lines;
                                 console := [ErrLine (message e)] |})).
  { unfold run, main. rewrite He. reflexivity. }
  split_and!; [exact Hrun | by rewrite Hrun |].
  apply new_inl in He as [[_ ->] | (str & Hin & Href & ->)]; [by left |].
  right. exists str. by split_and!.
Qed.

Lemma refused_configuration_exits_1_witness :
  exists msg,
    @run (tapeCrypto []) ["node"; "diceGame.js"; "1,2,3"; "4,x,6"; "7,8,9"] ["0"]
    = (Exited 1, {| drawn := 0; stdin := ["0"]; console := [ErrLine msg] |}).
Proof.
  destruct (@refused_configuration_exits_1 (tapeCrypto [])
              ["node"; "diceGame.js"; "1,2,3"; "4,x,6"; "7,8,9"] ["0"])
    as (msg & Hrun & _).
  - right. exists "4,x,6". split; [simpl; tauto |].
    right. exists "x". split; [simpl; tauto | reflexivity].
  - exists msg. exact Hrun.
Defined.
